(** * An indexed priority queue over Go's container/heap

    Shallow embedding of [int.go]: the [Item] record, the [IntQueue] slice of
    item pointers with its [heap.Interface] methods, the two helper
    operations [update] and [changePriority], and the demonstration driver
    [main].  The generic algorithms of Go's standard package
    [container/heap] ([Push], [Pop], [Remove], [up], [down]) are embedded
    next to them, since every operation of the queue goes through them. *)

From Stdlib Require Import ZArith Lia ZifyNat ZifyBool Sorted.
From stdpp Require Import base tactics option list relations.

Local Open Scope Z_scope.

(** Division by constants in linear arithmetic goals. *)
Ltac Zify.zify_post_hook ::= Z.to_euclidean_division_equations.

(** ** Data model *)

(** [type Item struct { value, priority, index int }].  The fields are only
    copied and compared, never computed with, so they are kept as
    integers. *)
Record Item := mkItem { value : Z; priority : Z; index : Z }.

Definition set_value (v : Z) (it : Item) : Item :=
  mkItem v (priority it) (index it).
Definition set_priority (p : Z) (it : Item) : Item :=
  mkItem (value it) p (index it).
Definition set_index (i : Z) (it : Item) : Item :=
  mkItem (value it) (priority it) i.

(** A [*Item] is an address into the store of allocated items.  An address
    past the end of the store stands for a pointer that cannot be
    dereferenced ([nil]). *)
Abbreviation ptr := nat (only parsing).

(** [type IntQueue []*Item]: the cells below [len] and the capacity of the
    backing array.  Cells between [len] and [cap] are written by
    [IntQueue.Push] before anything reads them and are not recorded. *)
Record IntQueue := mkQueue { elems : list ptr; capacity : nat }.

(** The program state: the items allocated so far (shared by every holder of
    a pointer) and the queue variable that [pq *IntQueue] points to. *)
Record state := mkState { mem : list Item; pq : IntQueue }.

Definition qlen (s : state) : nat := length (elems (pq s)).

(** ** Run-time panics and the execution monad *)

Inductive panic :=
| IndexOutOfRange
| SliceBoundsOutOfRange
| NilDereference.

(** An operation returns a value and a new state, or panics in the state
    reached when the panic is raised, or exhausts the loop budget of the
    model. *)
Inductive outcome (A : Type) :=
| Ok (a : A) (s : state)
| Panic (e : panic) (s : state)
| OutOfFuel.
Arguments Ok {A} a s.
Arguments Panic {A} e s.
Arguments OutOfFuel {A}.

Definition M (A : Type) := state -> outcome A.

Definition ret {A} (a : A) : M A := fun s => Ok a s.
Definition bind {A B} (m : M A) (k : A -> M B) : M B :=
  fun s => match m s with
           | Ok a s' => k a s'
           | Panic e s' => Panic e s'
           | OutOfFuel => OutOfFuel
           end.

Notation "x <- m ;; k" := (bind m (fun x => k))
  (at level 100, m at next level, right associativity).
Notation "m ;;; k" := (bind m (fun _ => k))
  (at level 100, right associativity).

(** ** Primitive accesses *)

(** [len(pq)] *)
Definition Len : M Z := fun s => Ok (Z.of_nat (qlen s)) s.

(** Reading [pq[i]]: bounds-checked against the length. *)
Definition get_elem (i : Z) : M ptr := fun s =>
  if (i <? 0) || (Z.of_nat (qlen s) <=? i) then Panic IndexOutOfRange s
  else match elems (pq s) !! Z.to_nat i with
       | Some p => Ok p s
       | None => Panic IndexOutOfRange s
       end.

(** Writing [pq[i] = p]. *)
Definition set_elem (i : Z) (p : ptr) : M unit := fun s =>
  if (i <? 0) || (Z.of_nat (qlen s) <=? i) then Panic IndexOutOfRange s
  else Ok tt (mkState (mem s)
                (mkQueue (<[Z.to_nat i := p]> (elems (pq s))) (capacity (pq s)))).

(** Reading through an item pointer. *)
Definition load (p : ptr) : M Item := fun s =>
  match mem s !! p with
  | Some it => Ok it s
  | None => Panic NilDereference s
  end.

(** Writing one field through an item pointer: [p.f = ...]. *)
Definition modify (p : ptr) (f : Item -> Item) : M unit := fun s =>
  match mem s !! p with
  | Some it => Ok tt (mkState (<[p := f it]> (mem s)) (pq s))
  | None => Panic NilDereference s
  end.

(** [&Item{...}]: a fresh item, at the next free address. *)
Definition new_item (it : Item) : M ptr := fun s =>
  Ok (length (mem s)) (mkState (mem s ++ [it]) (pq s)).

(** ** The [heap.Interface] methods of [IntQueue] *)

(** [func NewIntQueue(n int) IntQueue { return make(IntQueue, 0, n) }] *)
Definition NewIntQueue (n : nat) : IntQueue := mkQueue [] n.

(** [pq[i].priority > pq[j].priority] *)
Definition Less (i j : Z) : M bool :=
  pi <- get_elem i ;; a <- load pi ;;
  pj <- get_elem j ;; b <- load pj ;;
  ret (priority a >? priority b).

(** [pq[i], pq[j] = pq[j], pq[i]; pq[i].index = i; pq[j].index = j] *)
Definition Swap (i j : Z) : M unit :=
  pj <- get_elem j ;; pi <- get_elem i ;;
  set_elem i pj ;;; set_elem j pi ;;;
  p <- get_elem i ;; modify p (set_index i) ;;;
  q <- get_elem j ;; modify q (set_index j).

(** [IntQueue.Push]: reslice one cell further (which panics beyond the
    capacity), record the position in the item, store the pointer. *)
Definition IntQueue_Push (x : ptr) : M unit := fun s =>
  let n := qlen s in
  if (capacity (pq s) <? n + 1)%nat then Panic SliceBoundsOutOfRange s
  else (modify x (set_index (Z.of_nat n)) ;;;
        fun s' => Ok tt (mkState (mem s')
                           (mkQueue (elems (pq s) ++ [x]) (capacity (pq s))))) s.

(** [IntQueue.Pop]: take the last pointer, mark the item as detached with
    index -1, shorten the slice. *)
Definition IntQueue_Pop : M ptr :=
  n <- Len ;;
  item <- get_elem (n - 1) ;;
  modify item (set_index (-1)) ;;;
  fun s => Ok item (mkState (mem s)
                      (mkQueue (take (Z.to_nat (n - 1)) (elems (pq s)))
                               (capacity (pq s)))).

(** ** Go's [container/heap], instantiated at [IntQueue]

    The functions are those of the package source of the Go distribution
    ([heap.go]).  The loops [up] and [down] take a budget of iterations;
    the entry points below give them one more than the length of the queue,
    which is never used up ([up_loop_fuel], [down_loop_fuel],
    [operations_total]).  Positions are machine
    integers in Go; a slice of pointers has far fewer than 2^62 cells, so
    [2*i + 1] does not wrap and the test [j1 < 0] of [down] is kept as
    written. *)

(** [for { i := (j - 1) / 2; if i == j || !h.Less(j, i) { break };
          h.Swap(i, j); j = i }] with Go's truncating division. *)
Fixpoint up_loop (fuel : nat) (j : Z) : M unit :=
  match fuel with
  | O => fun _ => OutOfFuel
  | S f =>
      let i := Z.quot (j - 1) 2 in
      if i =? j then ret tt
      else b <- Less j i ;;
           if negb b then ret tt
           else Swap i j ;;; up_loop f i
  end.

Definition up (j : Z) : M unit := fun s => up_loop (S (qlen s)) j s.

(** [down(h, i0, n)]: sift the item at [i0] down within the first [n] cells;
    the result tells whether it moved. *)
Fixpoint down_loop (fuel : nat) (i0 i n : Z) : M bool :=
  match fuel with
  | O => fun _ => OutOfFuel
  | S f =>
      let j1 := 2 * i + 1 in
      if (j1 >=? n) || (j1 <? 0) then ret (i >? i0)
      else
        let j2 := j1 + 1 in
        b <- (if j2 <? n then Less j2 j1 else ret false) ;;
        let j := if b then j2 else j1 in
        c <- Less j i ;;
        if negb c then ret (i >? i0)
        else Swap i j ;;; down_loop f i0 j n
  end.

Definition down (i0 n : Z) : M bool := fun s => down_loop (S (qlen s)) i0 i0 n s.

(** [func Push(h Interface, x any) { h.Push(x); up(h, h.Len()-1) }] *)
Definition heap_Push (x : ptr) : M unit :=
  IntQueue_Push x ;;;
  n <- Len ;;
  up (n - 1).

(** [func Pop(h Interface) any { n := h.Len() - 1; h.Swap(0, n);
      down(h, 0, n); return h.Pop() }] *)
Definition heap_Pop : M ptr :=
  len <- Len ;;
  let n := len - 1 in
  Swap 0 n ;;;
  down 0 n ;;;
  IntQueue_Pop.

(** [func Remove(h Interface, i int) any { n := h.Len() - 1;
      if n != i { h.Swap(i, n); if !down(h, i, n) { up(h, i) } };
      return h.Pop() }] *)
Definition heap_Remove (i : Z) : M ptr :=
  len <- Len ;;
  let n := len - 1 in
  (if negb (n =? i)
   then Swap i n ;;;
        moved <- down i n ;;
        if negb moved then up i else ret tt
   else ret tt) ;;;
  IntQueue_Pop.

(** ** The queue's own operations *)

(** [update]: pop the top item, rewrite its value and priority, push it
    back. *)
Definition update (v p : Z) : M unit :=
  item <- heap_Pop ;;
  modify item (set_value v) ;;;
  modify item (set_priority p) ;;;
  heap_Push item.

(** [changePriority]: remove the item at the position it records, rewrite
    its priority, push it back. *)
Definition changePriority (item : ptr) (p : Z) : M unit :=
  it <- load item ;;
  heap_Remove (index it) ;;;
  modify item (set_priority p) ;;;
  heap_Push item.

(** ** The demonstration driver *)

Definition priorities : list Z := [77; 22; 44; 55; 11; 88; 33; 99; 0; 66].
Definition values : list Z := [0; 1; 2; 3; 4; 5; 6; 7; 8; 9].

(** The first loop of [main]: allocate and push one item per entry. *)
Fixpoint push_all (vps : list (Z * Z)) : M unit :=
  match vps with
  | [] => ret tt
  | (v, p) :: rest =>
      item <- new_item (mkItem v p 0) ;;
      heap_Push item ;;;
      push_all rest
  end.

(** The second loop of [main]: pop [k] items, collecting what is printed for
    each, the priority and then the value. *)
Fixpoint pop_all (k : nat) : M (list (Z * Z)) :=
  match k with
  | O => ret []
  | S k' =>
      item <- heap_Pop ;;
      it <- load item ;;
      rest <- pop_all k' ;;
      ret ((priority it, value it) :: rest)
  end.

Definition nItem : nat := 10.

Definition initial (n : nat) : state := mkState [] (NewIntQueue n).

Definition main : outcome (list (Z * Z)) :=
  (push_all (zip values priorities) ;;; pop_all nItem) (initial nItem).

Definition printed (o : outcome (list (Z * Z))) : option (list (Z * Z)) :=
  match o with Ok l _ => Some l | _ => None end.

(** ** Heap order on a priority assignment

    The order arguments are made once, on a function giving the priority at
    each position; the queue only enters through [prio] below. *)

Local Open Scope nat_scope.

Definition parent (k : nat) : nat := (k - 1) / 2.

Definition edge (f : nat → Z) (k : nat) : Prop := (f k ≤ f (parent k))%Z.

(** Max-heap order on the first [n] positions. *)
Definition heap_upto (n : nat) (f : nat → Z) : Prop :=
  ∀ k, 0 < k < n → edge f k.

(** The priorities after exchanging positions [i] and [j]. *)
Definition swapf (i j : nat) (f : nat → Z) : nat → Z :=
  fun k => if decide (k = i) then f j else if decide (k = j) then f i else f k.

(** What holds while [down] works at position [i]: every edge that does not
    touch [i] is in order, and the children of [i] are below its parent. *)
Definition down_inv (n i : nat) (f : nat → Z) : Prop :=
  (∀ k, 0 < k < n → k ≠ i → parent k ≠ i → edge f k) ∧
  (∀ k, 0 < k < n → parent k = i → 0 < i → (f k ≤ f (parent i))%Z).

(** What holds while [up] works at position [j]: every edge except the one
    above [j] is in order, and the children of [j] are below its parent. *)
Definition up_inv (n j : nat) (f : nat → Z) : Prop :=
  (∀ k, 0 < k < n → k ≠ j → edge f k) ∧
  (∀ k, 0 < k < n → parent k = j → 0 < j → (f k ≤ f (parent j))%Z).

(** ** Views of a state *)

(** The priority of the item behind a pointer, and at a position of the
    queue. *)
Definition pri (m : list Item) (p : ptr) : Z := from_option priority 0%Z (m !! p).
Definition prio (s : state) (k : nat) : Z :=
  from_option (pri (mem s)) 0%Z (elems (pq s) !! k).

(** Every pointer held by the queue can be dereferenced. *)
Definition valid (s : state) : Prop :=
  ∀ p, p ∈ elems (pq s) → p < length (mem s).

(** Every item of the queue records its own position. *)
Definition index_ok (s : state) : Prop :=
  ∀ k p, elems (pq s) !! k = Some p → index <$> mem s !! p = Some (Z.of_nat k).

Definition heap_ok (s : state) : Prop := heap_upto (qlen s) (prio s).

(** The slice does not extend beyond its backing array. *)
Definition cap_ok (s : state) : Prop := qlen s ≤ capacity (pq s).

(** Two states that differ at most in the [index] fields and in the order
    and number of the queue's cells. *)
Record same_payload (s s' : state) : Prop := {
  sp_cap : capacity (pq s') = capacity (pq s);
  sp_value : ∀ p, value <$> mem s' !! p = value <$> mem s !! p;
  sp_priority : ∀ p, priority <$> mem s' !! p = priority <$> mem s !! p
}.

(** An operation that only moves pointers and rewrites [index] fields. *)
Definition keeps {A} (m : M A) : Prop :=
  ∀ s a s', m s = Ok a s' → same_payload s s'.

(** ** What the sifting loops may change *)

(** [sift_rel b s s']: the queue of [s'] is a rearrangement of the queue of
    [s] that leaves the cells from [b] on in place; items outside the queue
    are untouched, the others keep value and priority, and positions stay
    recorded if they were. *)
Record sift_rel (b : nat) (s s' : state) : Prop := {
  sr_perm : elems (pq s') ≡ₚ elems (pq s);
  sr_above : ∀ k, b ≤ k → elems (pq s') !! k = elems (pq s) !! k;
  sr_off : ∀ p, p ∉ elems (pq s) → mem s' !! p = mem s !! p;
  sr_index : index_ok s → index_ok s';
  sr_payload : same_payload s s'
}.

(** ** The queue between operations *)

(** The representation invariant of the queue: the slice fits its backing
    array, every item records its position, and the priorities are in
    max-heap order. *)
Record wf (s : state) : Prop := {
  wf_cap : cap_ok s;
  wf_index : index_ok s;
  wf_heap : heap_ok s
}.

(** An operation that returns or panics on every state: the loop budget
    of the model is not used up. *)
Definition total {A} (m : M A) : Prop := ∀ s, m s ≠ OutOfFuel.

(** ** Reachable states *)

(** One step of a client of the queue: allocating an item, writing the
    fields of an item it holds outside the queue, or calling one of the
    operations, each under its precondition. *)
Inductive step : state → state → Prop :=
| step_alloc s it :
    step s (mkState (mem s ++ [it]) (pq s))
| step_write s x it :
    x < length (mem s) → x ∉ elems (pq s) →
    step s (mkState (<[x := it]> (mem s)) (pq s))
| step_push s x s' :
    x < length (mem s) → x ∉ elems (pq s) →
    heap_Push x s = Ok tt s' → step s s'
| step_pop s r s' :
    heap_Pop s = Ok r s' → step s s'
| step_changePriority s x p s' :
    x ∈ elems (pq s) →
    changePriority x p s = Ok tt s' → step s s'
| step_update s v p s' :
    update v p s = Ok tt s' → step s s'.

Inductive reachable : state → Prop :=
| reach_init n : reachable (initial n)
| reach_step s s' : reachable s → step s s' → reachable s'.

(** ** Operations of the specification that the source does not name *)

(** Modelled from the spec: [peek], which the source does not define.  The
    spec asks for the maximum-priority item without removal or mutation and
    for a failure on the empty queue; this is the read of the root cell,
    [pq[0]], with Go's bounds check. *)
Definition peek : M ptr := get_elem 0.

(** The spec's [removeAt(item)]: [heap.Remove] at the position the item
    records, as [changePriority] calls it. *)
Definition removeAt (item : ptr) : M ptr :=
  it <- load item ;; heap_Remove (index it).

(** The spec's description of [updatePriority(item, newValue, newPriority)]:
    [removeAt(item)], then writing both fields, then pushing the same
    item. *)
Definition updatePriority_spec (item : ptr) (v p : Z) : M unit :=
  removeAt item ;;;
  modify item (set_value v) ;;;
  modify item (set_priority p) ;;;
  heap_Push item.

(** ** Sample states *)

(** Two items pushed into a queue of capacity 2, priorities 5 then 9. *)
Definition two_items : state :=
  mkState [mkItem 0 5 1; mkItem 1 9 0] (mkQueue [1; 0] 2).

(** The same queue, and a third item that was allocated and never pushed. *)
Definition with_stranger : state :=
  mkState [mkItem 0 5 1; mkItem 1 9 0; mkItem 2 7 0] (mkQueue [1; 0] 2).

(** One item pushed into a queue of capacity 1, and a second item at hand. *)
Definition full_queue : state :=
  mkState [mkItem 0 5 0; mkItem 1 9 0] (mkQueue [0] 1).

(** A new queue and one allocated item. *)
Definition one_spare : state :=
  mkState [mkItem 0 5 0] (NewIntQueue 2).

(** What [main] prints for the item behind a pointer: its priority, then
    its value. *)
Definition pv (m : list Item) (p : nat) : Z * Z :=
  from_option (fun it => (priority it, value it)) (0, 0)%Z (m !! p).

(** The printed pairs of the items of the queue, cell by cell. *)
Definition items_of (s : state) : list (Z * Z) := pv (mem s) <$> elems (pq s).

(** The order in which [main] expects its output: priorities do not
    increase. *)
Definition by_priority (a b : Z * Z) : Prop := (b.1 ≤ a.1)%Z.

(** Two items in a queue of capacity 3 and a third item that ties with the
    root. *)
Definition with_tie : state :=
  mkState [mkItem 0 5 1; mkItem 1 9 0; mkItem 2 9 0] (mkQueue [1; 0] 3).

(** * Properties *)

(** ** Heap order: the order arguments *)

Lemma parent_lt k : 0 < k → parent k < k.
Proof. unfold parent. lia. Qed.

Lemma parent_child k i : 0 < k → (parent k = i ↔ k = 2 * i + 1 ∨ k = 2 * i + 2).
Proof. unfold parent. intros. split; intros; lia. Qed.

Section HeapOrder.
Variable f : nat → Z.
Variable n : nat.

Lemma heap_root_max : heap_upto n f → ∀ k, k < n → (f k ≤ f 0)%Z.
Proof.
  intros H k. induction (lt_wf k) as [k _ IH]. intros Hk.
  destruct (decide (k = 0)) as [->|]; [lia|].
  pose proof (parent_lt k ltac:(lia)).
  specialize (IH (parent k) ltac:(lia) ltac:(lia)).
  specialize (H k ltac:(lia)). unfold edge in H. lia.
Qed.

Lemma heap_upto_le m : m ≤ n → heap_upto n f → heap_upto m f.
Proof. intros ? H k ?. apply H. lia. Qed.

Lemma heap_down_inv i : heap_upto n f → down_inv n i f.
Proof.
  intros H. split; [intros; apply H; lia|].
  intros k Hk <- Hp.
  pose proof (parent_lt k ltac:(lia)).
  pose proof (H k Hk). pose proof (H (parent k) ltac:(lia)).
  unfold edge in *. lia.
Qed.

(** [down] stops at [i]: the children of [i] are in order below it. *)
Lemma down_inv_done i :
  down_inv n i f →
  (0 < i → edge f i) →
  (∀ k, 0 < k < n → parent k = i → (f k ≤ f i)%Z) →
  heap_upto n f.
Proof.
  intros [H1 H2] Hi Hc k Hk.
  destruct (decide (k = i)) as [->|]; [apply Hi; lia|].
  destruct (decide (parent k = i)) as [E|]; [|by apply H1].
  unfold edge. rewrite E. by apply Hc.
Qed.

Lemma swapf_l i j : swapf i j f i = f j.
Proof. unfold swapf. by rewrite decide_True. Qed.

Lemma swapf_r i j : swapf i j f j = f i.
Proof. unfold swapf. destruct (decide (j = i)) as [->|]; [done|]. by rewrite decide_True. Qed.

Lemma swapf_o i j k : k ≠ i → k ≠ j → swapf i j f k = f k.
Proof. intros. unfold swapf. by rewrite !decide_False. Qed.

(** [down] exchanges [i] with its larger child [j]. *)
Lemma down_inv_step i j :
  down_inv n i f →
  0 < j < n → parent j = i →
  (∀ k, 0 < k < n → parent k = i → (f k ≤ f j)%Z) →
  (f i < f j)%Z →
  down_inv n j (swapf i j f) ∧ edge (swapf i j f) j.
Proof.
  intros [H1 H2] Hj Hp Hmax Hlt.
  pose proof (parent_lt j ltac:(lia)) as Hij. rewrite Hp in Hij.
  split; [split|].
  - intros k Hk Hkj Hpj. unfold edge.
    destruct (decide (k = i)) as [->|Hki].
    + pose proof (parent_lt i ltac:(lia)).
      rewrite swapf_l, swapf_o by lia. apply (H2 j); lia.
    + rewrite (swapf_o _ _ k) by done.
      destruct (decide (parent k = i)) as [E|Hpi].
      * rewrite E, swapf_l. apply Hmax; lia.
      * rewrite swapf_o by done. by apply H1.
  - intros k Hk Hpk _.
    pose proof (parent_lt k ltac:(lia)).
    rewrite Hp, swapf_l, swapf_o by lia.
    pose proof (H1 k Hk ltac:(lia) ltac:(lia)) as E.
    unfold edge in E. by rewrite Hpk in E.
  - unfold edge. rewrite Hp, swapf_l, swapf_r. lia.
Qed.

(** [up] stops at [j]. *)
Lemma up_inv_done j :
  up_inv n j f → (0 < j → edge f j) → heap_upto n f.
Proof.
  intros [H1 _] Hj k Hk.
  destruct (decide (k = j)) as [->|]; [apply Hj; lia | by apply H1].
Qed.

(** [up] exchanges [j] with its parent. *)
Lemma up_inv_step j :
  up_inv n j f → 0 < j < n →
  (f (parent j) < f j)%Z →
  up_inv n (parent j) (swapf (parent j) j f).
Proof.
  intros [H1 H2] Hj Hlt.
  pose proof (parent_lt j ltac:(lia)) as Hij.
  set (i := parent j) in *.
  split.
  - intros k Hk Hki. unfold edge.
    destruct (decide (k = j)) as [->|Hkj].
    + fold i. rewrite swapf_l, swapf_r. lia.
    + rewrite (swapf_o _ _ k) by done.
      destruct (decide (parent k = i)) as [E|Hpi].
      * rewrite E, swapf_l.
        pose proof (H1 k Hk Hkj) as E'. unfold edge in E'. rewrite E in E'. lia.
      * destruct (decide (parent k = j)) as [E|Hpj].
        -- rewrite E, swapf_r. apply (H2 k); [done..|lia].
        -- rewrite swapf_o by done. by apply H1.
  - intros k Hk Hpk Hi.
    pose proof (parent_lt i ltac:(lia)).
    rewrite (swapf_o _ _ (parent i)) by lia.
    pose proof (H1 i ltac:(lia) ltac:(lia)) as Ei. unfold edge in Ei.
    destruct (decide (k = j)) as [->|Hkj]; [by rewrite swapf_r|].
    pose proof (parent_lt k ltac:(lia)).
    rewrite swapf_o by lia.
    pose proof (H1 k Hk Hkj) as E'. unfold edge in E'. rewrite Hpk in E'. lia.
Qed.

(** Replacing the item at [i] by the last one, as [heap.Remove] does. *)
Lemma heap_replace_down_inv i :
  heap_upto (S n) f → i < n → down_inv n i (swapf i n f).
Proof.
  intros H Hi. split.
  - intros k Hk Hki Hpi. unfold edge.
    pose proof (parent_lt k ltac:(lia)).
    rewrite !swapf_o by lia. apply H. lia.
  - intros k Hk Hpk Hi0.
    pose proof (parent_lt k ltac:(lia)). pose proof (parent_lt i ltac:(lia)).
    rewrite !swapf_o by lia.
    pose proof (H k ltac:(lia)) as E1. pose proof (H i ltac:(lia)) as E2.
    unfold edge in *. rewrite Hpk in E1. lia.
Qed.
End HeapOrder.

(** ** Operations that keep values and priorities *)

Create HintDb keeps discriminated.

Section Payload.
Lemma same_payload_refl s : same_payload s s.
Proof. by split. Qed.

Lemma same_payload_trans s1 s2 s3 :
  same_payload s1 s2 → same_payload s2 s3 → same_payload s1 s3.
Proof.
  intros [] []. split; intros; etrans; eauto.
Qed.

Lemma same_payload_length s s' : same_payload s s' → length (mem s') = length (mem s).
Proof.
  intros [_ Hv _].
  destruct (Nat.lt_trichotomy (length (mem s')) (length (mem s))) as [?|[?|?]]; [|done|].
  - specialize (Hv (length (mem s'))).
    rewrite (lookup_ge_None_2 (mem s')) in Hv by lia.
    destruct (lookup_lt_is_Some_2 (mem s) (length (mem s'))) as [x Hx]; [lia|].
    by rewrite Hx in Hv.
  - specialize (Hv (length (mem s))).
    rewrite (lookup_ge_None_2 (mem s)) in Hv by lia.
    destruct (lookup_lt_is_Some_2 (mem s') (length (mem s))) as [x Hx]; [lia|].
    by rewrite Hx in Hv.
Qed.

Lemma same_payload_pri s s' p : same_payload s s' → pri (mem s') p = pri (mem s) p.
Proof.
  intros [_ _ Hp]. specialize (Hp p). unfold pri.
  destruct (mem s' !! p), (mem s !! p); cbn in *; congruence.
Qed.

Lemma keeps_ret {A} (a : A) : keeps (ret a).
Proof. intros s a' s' [= _ <-]. apply same_payload_refl. Qed.

Lemma keeps_bind {A B} (m : M A) (k : A → M B) :
  keeps m → (∀ a, keeps (k a)) → keeps (bind m k).
Proof.
  intros Hm Hk s b s'. unfold bind. destruct (m s) as [a s1| |] eqn:E; [|done..].
  intros E'. eapply same_payload_trans; [by eapply Hm | by eapply Hk].
Qed.

Lemma keeps_if {A} (b : bool) (m1 m2 : M A) :
  keeps m1 → keeps m2 → keeps (if b then m1 else m2).
Proof. by destruct b. Qed.

Lemma keeps_Len : keeps Len.
Proof. intros s a s' [= _ <-]. apply same_payload_refl. Qed.

Lemma keeps_get_elem i : keeps (get_elem i).
Proof.
  intros s a s'. unfold get_elem.
  repeat case_match; intros; simplify_eq. apply same_payload_refl.
Qed.

Lemma keeps_set_elem i p : keeps (set_elem i p).
Proof.
  intros s a s'. unfold set_elem.
  repeat case_match; intros; simplify_eq. by split.
Qed.

Lemma keeps_load p : keeps (load p).
Proof.
  intros s a s'. unfold load.
  repeat case_match; intros; simplify_eq. apply same_payload_refl.
Qed.

Lemma keeps_modify_index p i : keeps (modify p (set_index i)).
Proof.
  intros s a s'. unfold modify.
  destruct (mem s !! p) as [it|] eqn:E; intros; simplify_eq.
  pose proof (lookup_lt_Some _ _ _ E).
  split; [done|intros q; simpl..];
    (destruct (decide (p = q)) as [<-|];
     [rewrite list_lookup_insert_eq, E by done | rewrite list_lookup_insert_ne by done]; done).
Qed.
End Payload.

#[export] Hint Resolve keeps_ret keeps_bind keeps_if keeps_Len keeps_get_elem
  keeps_set_elem keeps_load keeps_modify_index : keeps.

Section PayloadOps.
Lemma keeps_Less i j : keeps (Less i j).
Proof. unfold Less. eauto 20 with keeps. Qed.

Lemma keeps_Swap i j : keeps (Swap i j).
Proof. unfold Swap. eauto 20 with keeps. Qed.

Lemma keeps_IntQueue_Push x : keeps (IntQueue_Push x).
Proof.
  intros s a s'. unfold IntQueue_Push. case_match; [done|].
  unfold bind. destruct (modify _ _ s) as [[] s1| |] eqn:E; [|done..].
  intros [= _ <-]. apply keeps_modify_index in E. destruct E. by split.
Qed.

Lemma keeps_IntQueue_Pop : keeps IntQueue_Pop.
Proof.
  unfold IntQueue_Pop. repeat (apply keeps_bind; [eauto with keeps|intros ?]).
  intros s r s' [= _ <-]. by split.
Qed.

Lemma keeps_up_loop fuel : ∀ j, keeps (up_loop fuel j).
Proof.
  induction fuel as [|f IH]; intros j; [done|]. simpl.
  case_match; [eauto with keeps|].
  apply keeps_bind; [apply keeps_Less|]. intros b.
  destruct b; simpl; [|eauto with keeps].
  apply keeps_bind; [apply keeps_Swap | auto].
Qed.

Lemma keeps_down_loop fuel : ∀ i0 i n, keeps (down_loop fuel i0 i n).
Proof.
  induction fuel as [|f IH]; intros i0 i n; [done|]. simpl.
  case_match; [eauto with keeps|].
  apply keeps_bind; [case_match; [apply keeps_Less | eauto with keeps]|]. intros b.
  apply keeps_bind; [apply keeps_Less|]. intros c.
  destruct c; simpl; [|eauto with keeps].
  apply keeps_bind; [apply keeps_Swap | auto].
Qed.

Lemma keeps_up j : keeps (up j).
Proof. intros s a s'. apply keeps_up_loop. Qed.

Lemma keeps_down i n : keeps (down i n).
Proof. intros s a s'. apply keeps_down_loop. Qed.
End PayloadOps.

#[export] Hint Resolve keeps_Less keeps_Swap keeps_IntQueue_Push keeps_IntQueue_Pop
  keeps_up keeps_down : keeps.

Lemma keeps_heap_Push x : keeps (heap_Push x).
Proof. unfold heap_Push. eauto 20 with keeps. Qed.

Lemma keeps_heap_Pop : keeps heap_Pop.
Proof. unfold heap_Pop. eauto 20 with keeps. Qed.

Lemma keeps_heap_Remove i : keeps (heap_Remove i).
Proof.
  unfold heap_Remove. apply keeps_bind; [eauto with keeps|]. intros len.
  apply keeps_bind; [|eauto with keeps].
  case_match; simpl; [|eauto with keeps].
  apply keeps_bind; [eauto with keeps|]. intros _.
  apply keeps_bind; [eauto with keeps|]. intros []; simpl; eauto with keeps.
Qed.

(** ** Running the primitive accesses *)

Section Primitives.
Implicit Types (s : state) (k i j : nat).

Lemma get_elem_nat k s :
  get_elem (Z.of_nat k) s =
    match elems (pq s) !! k with
    | Some p => Ok p s
    | None => Panic IndexOutOfRange s
    end.
Proof.
  unfold get_elem. rewrite Nat2Z.id.
  destruct (_ || _) eqn:E; [|done].
  rewrite lookup_ge_None_2; [done|]. unfold qlen in E. lia.
Qed.

Lemma get_elem_out z s :
  (z < 0 ∨ Z.of_nat (qlen s) ≤ z)%Z → get_elem z s = Panic IndexOutOfRange s.
Proof.
  intros H. unfold get_elem. destruct (_ || _) eqn:E; [done|lia].
Qed.

Lemma set_elem_nat k p s :
  k < qlen s →
  set_elem (Z.of_nat k) p s =
    Ok tt (mkState (mem s) (mkQueue (<[k:=p]> (elems (pq s))) (capacity (pq s)))).
Proof.
  intros H. unfold set_elem. rewrite Nat2Z.id.
  destruct (_ || _) eqn:E; [lia|done].
Qed.

Lemma valid_lookup s k p :
  valid s → elems (pq s) !! k = Some p → is_Some (mem s !! p).
Proof.
  intros Hv Hk. apply lookup_lt_is_Some_2, Hv. by eapply list_elem_of_lookup_2.
Qed.

Lemma Less_ok i j s :
  valid s → i < qlen s → j < qlen s →
  Less (Z.of_nat i) (Z.of_nat j) s = Ok (prio s i >? prio s j)%Z s.
Proof.
  intros Hv Hi Hj.
  destruct (lookup_lt_is_Some_2 (elems (pq s)) i Hi) as [pi Ei].
  destruct (lookup_lt_is_Some_2 (elems (pq s)) j Hj) as [pj Ej].
  destruct (valid_lookup _ _ _ Hv Ei) as [a Ea].
  destruct (valid_lookup _ _ _ Hv Ej) as [b Eb].
  unfold Less, bind, load, prio, pri.
  rewrite get_elem_nat, Ei. simpl. rewrite Ea.
  rewrite get_elem_nat, Ej. simpl. by rewrite Eb.
Qed.

Lemma Swap_ok i j pi pj s :
  valid s →
  elems (pq s) !! i = Some pi → elems (pq s) !! j = Some pj →
  ∃ s', Swap (Z.of_nat i) (Z.of_nat j) s = Ok tt s' ∧
        elems (pq s') = <[j:=pi]> (<[i:=pj]> (elems (pq s))) ∧
        (∀ p, p ≠ pi → p ≠ pj → mem s' !! p = mem s !! p) ∧
        index <$> mem s' !! pi = Some (Z.of_nat j) ∧
        (pj ≠ pi → index <$> mem s' !! pj = Some (Z.of_nat i)).
Proof.
  intros Hv Ei Ej.
  pose proof (lookup_lt_Some _ _ _ Ei) as Hi.
  pose proof (lookup_lt_Some _ _ _ Ej) as Hj.
  destruct (valid_lookup _ _ _ Hv Ei) as [a Ea].
  destruct (valid_lookup _ _ _ Hv Ej) as [b Eb].
  pose proof (lookup_lt_Some _ _ _ Ea) as Ha.
  pose proof (lookup_lt_Some _ _ _ Eb) as Hb.
  unfold Swap, bind.
  rewrite get_elem_nat, Ej, get_elem_nat, Ei.
  rewrite set_elem_nat by done.
  rewrite set_elem_nat by (unfold qlen; simpl; by rewrite length_insert).
  rewrite get_elem_nat. simpl.
  assert (<[j:=pi]> (<[i:=pj]> (elems (pq s))) !! i = Some pj) as ->.
  { destruct (decide (i = j)) as [->|].
    - rewrite list_lookup_insert_eq by (by rewrite length_insert). congruence.
    - rewrite list_lookup_insert_ne by done. by rewrite list_lookup_insert_eq. }
  unfold modify at 1. simpl. rewrite Eb.
  rewrite get_elem_nat. simpl.
  rewrite list_lookup_insert_eq by (by rewrite length_insert).
  unfold modify. simpl.
  destruct (decide (pj = pi)) as [->|Hne].
  - rewrite list_lookup_insert_eq by done.
    eexists. split; [done|]. simpl. split; [done|].
    split; [|split; [|done]].
    + intros p ? ?. by rewrite !list_lookup_insert_ne.
    + by rewrite list_lookup_insert_eq by (by rewrite length_insert).
  - rewrite list_lookup_insert_ne, Ea by done.
    eexists. split; [done|]. simpl. split; [done|].
    split; [|split].
    + intros p ? ?. by rewrite !list_lookup_insert_ne.
    + by rewrite list_lookup_insert_eq by (by rewrite length_insert).
    + intros _. rewrite list_lookup_insert_ne by done.
      by rewrite list_lookup_insert_eq.
Qed.
End Primitives.

(** ** The relation between the states of a sifting loop *)

Section SiftRel.
Implicit Types (s : state) (b k i j : nat).

Lemma sift_rel_refl b s : sift_rel b s s.
Proof. split; auto using same_payload_refl. Qed.

Lemma sift_rel_trans b s1 s2 s3 :
  sift_rel b s1 s2 → sift_rel b s2 s3 → sift_rel b s1 s3.
Proof.
  intros [P1 A1 O1 I1 Y1] [P2 A2 O2 I2 Y2]. split.
  - by etrans.
  - intros. rewrite A2, A1 by done. done.
  - intros p Hp. rewrite O2, O1; [done..|]. by rewrite P1.
  - auto.
  - by eapply same_payload_trans.
Qed.

Lemma sift_rel_mono b b' s s' : b ≤ b' → sift_rel b s s' → sift_rel b' s s'.
Proof. intros ? []. split; auto. intros. apply sr_above0. lia. Qed.

Lemma sift_rel_qlen b s s' : sift_rel b s s' → qlen s' = qlen s.
Proof. intros []. unfold qlen. by apply Permutation_length. Qed.

Lemma sift_rel_valid b s s' : sift_rel b s s' → valid s → valid s'.
Proof.
  intros [P _ _ _ Y] Hv p Hp.
  rewrite (same_payload_length _ _ Y). apply Hv. by rewrite <- P.
Qed.

Lemma sift_rel_prio b s s' k : sift_rel b s s' → b ≤ k → prio s' k = prio s k.
Proof.
  intros [_ A _ _ Y] Hk. unfold prio. rewrite A by done.
  destruct (elems (pq s) !! k); [simpl|done]. by apply same_payload_pri.
Qed.

Lemma index_ok_inj s i j p :
  index_ok s → elems (pq s) !! i = Some p → elems (pq s) !! j = Some p → i = j.
Proof.
  intros H Hi Hj. apply H in Hi, Hj. rewrite Hi in Hj. by simplify_eq.
Qed.

Lemma index_ok_NoDup s : index_ok s → NoDup (elems (pq s)).
Proof. intros H. apply NoDup_alt. intros i j p. by apply index_ok_inj. Qed.

Lemma index_ok_valid s : index_ok s → valid s.
Proof.
  intros H p [k Hk]%list_elem_of_lookup_1. apply H in Hk.
  destruct (mem s !! p) eqn:E; [|done]. by eapply lookup_lt_Some.
Qed.

Lemma Swap_rel i j s :
  valid s → i < qlen s → j < qlen s →
  ∃ s', Swap (Z.of_nat i) (Z.of_nat j) s = Ok tt s' ∧
        sift_rel (S (max i j)) s s' ∧
        elems (pq s') !! j = elems (pq s) !! i ∧
        ∀ k, prio s' k = swapf i j (prio s) k.
Proof.
  intros Hv Hi Hj.
  destruct (lookup_lt_is_Some_2 (elems (pq s)) i Hi) as [pi Ei].
  destruct (lookup_lt_is_Some_2 (elems (pq s)) j Hj) as [pj Ej].
  destruct (Swap_ok i j pi pj s Hv Ei Ej) as (s' & Hs & He & Hoff & Hpi & Hpj).
  pose proof (keeps_Swap _ _ _ _ _ Hs) as Y.
  exists s'. split; [done|]. split; [split|split].
  - rewrite He. by apply Permutation_insert_swap.
  - intros k Hk. rewrite He, !list_lookup_insert_ne by lia. done.
  - intros p Hp. apply Hoff; intros ->; apply Hp; by eapply list_elem_of_lookup_2.
  - intros Hix k p. rewrite He. intros Hk.
    destruct (decide (k = j)) as [->|Hkj].
    { rewrite list_lookup_insert_eq in Hk by (by rewrite length_insert).
      by simplify_eq. }
    rewrite list_lookup_insert_ne in Hk by done.
    destruct (decide (k = i)) as [->|Hki].
    { rewrite list_lookup_insert_eq in Hk by done. simplify_eq.
      apply Hpj. intros ->. by pose proof (index_ok_inj _ _ _ _ Hix Ei Ej). }
    rewrite list_lookup_insert_ne in Hk by done.
    rewrite Hoff; [by apply Hix|intros ->..].
    + by pose proof (index_ok_inj _ _ _ _ Hix Ei Hk).
    + by pose proof (index_ok_inj _ _ _ _ Hix Ej Hk).
  - done.
  - rewrite He, Ei. apply list_lookup_insert_eq. by rewrite length_insert.
  - intros k. unfold prio at 1. rewrite He.
    destruct (decide (k = j)) as [->|Hkj].
    { rewrite list_lookup_insert_eq by (by rewrite length_insert).
      rewrite swapf_r. simpl. rewrite (same_payload_pri _ _ _ Y).
      unfold prio. by rewrite Ei. }
    rewrite list_lookup_insert_ne by done.
    destruct (decide (k = i)) as [->|Hki].
    { rewrite list_lookup_insert_eq by done.
      rewrite swapf_l. simpl. rewrite (same_payload_pri _ _ _ Y).
      unfold prio. by rewrite Ej. }
    rewrite list_lookup_insert_ne, swapf_o by done.
    unfold prio. destruct (elems (pq s) !! k); [simpl|done].
    by apply same_payload_pri.
Qed.
End SiftRel.

(** The order predicates only look at the priorities. *)
Section Ext.
Context (f g : nat → Z) (Hfg : ∀ k, g k = f k).

Lemma heap_upto_ext n : heap_upto n f → heap_upto n g.
Proof. intros H k Hk. unfold edge. rewrite !Hfg. by apply H. Qed.

Lemma up_inv_ext n j : up_inv n j f → up_inv n j g.
Proof.
  intros [H1 H2]. split.
  - intros k ??. unfold edge. rewrite !Hfg. by apply H1.
  - intros k ???. rewrite !Hfg. by apply H2.
Qed.

Lemma down_inv_ext n i : down_inv n i f → down_inv n i g.
Proof.
  intros [H1 H2]. split.
  - intros k ???. unfold edge. rewrite !Hfg. by apply H1.
  - intros k ???. rewrite !Hfg. by apply H2.
Qed.
End Ext.

(** ** The sifting loops *)

Section Sift.
Implicit Types (s : state) (n k i j : nat).

(** [up] from position [j]: it returns, rearranging only the cells up to
    [j], and restores the heap order if only the edge above [j] was out of
    order. *)
Lemma up_loop_spec fuel : ∀ j s n,
  valid s → j < n → n ≤ qlen s → j < fuel →
  ∃ s', up_loop fuel (Z.of_nat j) s = Ok tt s' ∧
        sift_rel (S j) s s' ∧
        (up_inv n j (prio s) → heap_upto n (prio s')).
Proof.
  induction fuel as [|fuel IH]; intros j s n Hv Hj Hn Hf; [lia|].
  simpl up_loop.
  replace (Z.quot (Z.of_nat j - 1) 2) with (Z.of_nat (parent j))
    by (unfold parent; lia).
  destruct (decide (j = 0)) as [->|Hj0].
  { change (parent 0) with 0. rewrite Z.eqb_refl.
    exists s. split; [done|]. split; [apply sift_rel_refl|].
    intros H. apply (up_inv_done _ _ 0 H). lia. }
  pose proof (parent_lt j ltac:(lia)) as Hp.
  rewrite (proj2 (Z.eqb_neq _ _)) by lia.
  unfold bind at 1. rewrite Less_ok by (done || lia).
  destruct (prio s j >? prio s (parent j))%Z eqn:Hc; cbn [negb].
  - destruct (Swap_rel (parent j) j s) as (s1 & Hs & R1 & _ & Hf1); [done|lia..|].
    unfold bind. rewrite Hs.
    replace (S (max (parent j) j)) with (S j) in R1 by lia.
    destruct (IH (parent j) s1 n) as (s' & Hs' & R2 & Hh).
    { by eapply sift_rel_valid. } { lia. }
    { by rewrite (sift_rel_qlen _ _ _ R1). } { lia. }
    exists s'. split; [done|]. split.
    + eapply sift_rel_trans; [done|]. eapply sift_rel_mono; [|done]. lia.
    + intros H. apply Hh. eapply up_inv_ext; [done|].
      apply up_inv_step; [done|lia..].
  - exists s. split; [done|]. split; [apply sift_rel_refl|].
    intros H. apply (up_inv_done _ _ j H). intros _. unfold edge. lia.
Qed.

(** The choice of the larger child made by [down] at position [i]. *)
Lemma down_child i n s :
  valid s → n ≤ qlen s → 2 * i + 1 < n →
  ∃ b : bool,
    (if (Z.of_nat (2 * i + 1) + 1 <? Z.of_nat n)%Z
     then Less (Z.of_nat (2 * i + 1) + 1) (Z.of_nat (2 * i + 1))
     else ret false) s = Ok b s ∧
    let j := if b then 2 * i + 2 else 2 * i + 1 in
    0 < j < n ∧ parent j = i ∧
    (if b then Z.of_nat (2 * i + 1) + 1 else Z.of_nat (2 * i + 1))%Z = Z.of_nat j ∧
    ∀ k, 0 < k < n → parent k = i → (prio s k ≤ prio s j)%Z.
Proof.
  intros Hv Hn Hi.
  replace (Z.of_nat (2 * i + 1) + 1)%Z with (Z.of_nat (2 * i + 2)) by lia.
  destruct (Z.of_nat (2 * i + 2) <? Z.of_nat n)%Z eqn:E2.
  - rewrite Less_ok by (done || lia).
    destruct (prio s (2 * i + 2) >? prio s (2 * i + 1))%Z eqn:Hb;
      eexists; (split; [done|]); cbv beta zeta iota;
      (split; [lia|]); (split; [unfold parent; lia|]); (split; [done|]);
      intros k Hk [->| ->]%parent_child; lia.
  - exists false. split; [done|]. cbv beta zeta iota.
    split; [lia|]. split; [unfold parent; lia|]. split; [done|].
    intros k Hk [->| ->]%parent_child; lia.
Qed.

(** [down] from position [i] within the first [n] cells: it returns,
    rearranging only those cells; if it reports no move the state is
    unchanged and the children of [i] are in order below it; if it
    reports a move the heap order of the [n] cells is restored. *)
Lemma down_loop_spec fuel : ∀ i0 i n s,
  valid s → n ≤ qlen s → i0 ≤ i → 0 < fuel → n < fuel + i →
  ∃ b s', down_loop fuel (Z.of_nat i0) (Z.of_nat i) (Z.of_nat n) s = Ok b s' ∧
          sift_rel n s s' ∧
          (i0 < i → b = true) ∧
          (b = false → s' = s) ∧
          (down_inv n i (prio s) → (i0 < i → edge (prio s) i) →
           if b then heap_upto n (prio s')
           else ∀ k, 0 < k < n → parent k = i → edge (prio s) k).
Proof.
  induction fuel as [|fuel IH]; intros i0 i n s Hv Hn Hi Hf0 Hf; [lia|].
  simpl down_loop.
  replace (2 * Z.of_nat i + 1)%Z with (Z.of_nat (2 * i + 1)) by lia.
  destruct ((Z.of_nat (2 * i + 1) >=? Z.of_nat n)%Z || (Z.of_nat (2 * i + 1) <? 0)%Z)
    eqn:Hstop.
  { exists (Z.of_nat i >? Z.of_nat i0)%Z, s. split; [done|].
    split; [apply sift_rel_refl|]. split; [lia|]. split; [done|].
    intros Hd He.
    assert (∀ k, 0 < k < n → parent k = i → (prio s k ≤ prio s i)%Z) as Hc.
    { intros k Hk [->| ->]%parent_child; lia. }
    destruct (Z.of_nat i >? Z.of_nat i0)%Z eqn:Hb.
    - apply (down_inv_done _ _ i Hd); [intros; apply He; lia|done].
    - intros k Hk Hp. unfold edge. rewrite Hp. by apply Hc. }
  destruct (down_child i n s) as (b2 & Hb2 & Hjn & Hpj & Hjz & Hmax); [done|done|lia|].
  unfold bind at 1. rewrite Hb2. rewrite Hjz.
  set (j := if b2 then 2 * i + 2 else 2 * i + 1) in *.
  unfold bind at 1. rewrite Less_ok by (done || lia).
  destruct (prio s j >? prio s i)%Z eqn:Hc; cbn [negb].
  - destruct (Swap_rel i j s) as (s1 & Hs & R1 & _ & Hf1); [done|lia..|].
    unfold bind. rewrite Hs.
    pose proof (parent_lt j ltac:(lia)) as Hij. rewrite Hpj in Hij.
    apply (sift_rel_mono _ n) in R1; [|lia].
    destruct (IH i0 j n s1) as (b & s' & Hs' & R2 & Hb & _ & Hh).
    { by eapply sift_rel_valid. }
    { by rewrite (sift_rel_qlen _ _ _ R1). } { lia. } { lia. } { lia. }
    rewrite Hb in * by lia.
    exists true, s'. split; [done|]. split; [by eapply sift_rel_trans|].
    split; [done|]. split; [done|].
    intros Hd He.
    destruct (down_inv_step _ _ i j Hd) as [Hd' He']; [lia|done|done|lia|].
    apply Hh.
    + by eapply down_inv_ext.
    + intros _. unfold edge. rewrite !Hf1. apply He'.
  - exists (Z.of_nat i >? Z.of_nat i0)%Z, s. split; [done|].
    split; [apply sift_rel_refl|]. split; [lia|]. split; [done|].
    intros Hd He.
    assert (∀ k, 0 < k < n → parent k = i → (prio s k ≤ prio s i)%Z) as Hch.
    { intros k Hk Hp. specialize (Hmax k Hk Hp). lia. }
    destruct (Z.of_nat i >? Z.of_nat i0)%Z eqn:Hb.
    + apply (down_inv_done _ _ i Hd); [intros; apply He; lia|done].
    + intros k Hk Hp. unfold edge. rewrite Hp. by apply Hch.
Qed.
End Sift.

(** ** The methods and [heap.Push] *)

Section Methods.
Implicit Types (s : state) (n k i j : nat).

Lemma IntQueue_Pop_spec n r s :
  valid s → qlen s = S n → elems (pq s) !! n = Some r →
  ∃ s', IntQueue_Pop s = Ok r s' ∧
        elems (pq s') = take n (elems (pq s)) ∧
        index <$> mem s' !! r = Some (-1)%Z ∧
        (∀ p, p ≠ r → mem s' !! p = mem s !! p) ∧
        same_payload s s'.
Proof.
  intros Hv Hn Hr. destruct (valid_lookup _ _ _ Hv Hr) as [it Hit].
  assert (IntQueue_Pop s =
          Ok r (mkState (<[r := set_index (-1) it]> (mem s))
                  (mkQueue (take n (elems (pq s))) (capacity (pq s))))) as E.
  { unfold IntQueue_Pop, bind, Len. rewrite Hn.
    replace (Z.of_nat (S n) - 1)%Z with (Z.of_nat n) by lia.
    rewrite get_elem_nat, Hr. unfold modify. rewrite Hit. by rewrite Nat2Z.id. }
  eexists. split; [exact E|]. simpl. split; [done|]. split; [|split].
  - rewrite list_lookup_insert_eq; [done | by eapply lookup_lt_Some].
  - intros p ?. by rewrite list_lookup_insert_ne.
  - by eapply keeps_IntQueue_Pop.
Qed.

Lemma IntQueue_Push_spec x s :
  x < length (mem s) → qlen s < capacity (pq s) →
  ∃ s', IntQueue_Push x s = Ok tt s' ∧
        elems (pq s') = elems (pq s) ++ [x] ∧
        index <$> mem s' !! x = Some (Z.of_nat (qlen s)) ∧
        (∀ p, p ≠ x → mem s' !! p = mem s !! p) ∧
        same_payload s s'.
Proof.
  intros Hx Hc. destruct (lookup_lt_is_Some_2 _ _ Hx) as [it Hit].
  assert (IntQueue_Push x s =
          Ok tt (mkState (<[x := set_index (Z.of_nat (qlen s)) it]> (mem s))
                   (mkQueue (elems (pq s) ++ [x]) (capacity (pq s))))) as E.
  { unfold IntQueue_Push, bind, modify.
    destruct (capacity (pq s) <? qlen s + 1) eqn:Hlt; [lia|]. by rewrite Hit. }
  eexists. split; [exact E|]. simpl. split; [done|]. split; [|split].
  - by rewrite list_lookup_insert_eq.
  - intros p ?. by rewrite list_lookup_insert_ne.
  - by eapply keeps_IntQueue_Push.
Qed.

Lemma IntQueue_Push_full x s :
  capacity (pq s) ≤ qlen s → IntQueue_Push x s = Panic SliceBoundsOutOfRange s.
Proof.
  intros Hc. unfold IntQueue_Push.
  destruct (capacity (pq s) <? qlen s + 1) eqn:Hlt; [done|lia].
Qed.

Lemma take_last_cell (l : list nat) n r :
  length l = S n → l !! n = Some r → l = take n l ++ [r].
Proof.
  intros Hl Hr. rewrite <- (take_drop_middle l n r Hr) at 1.
  by rewrite drop_ge by lia.
Qed.

(** The order of the first [n] cells only depends on their priorities. *)
Lemma prio_prefix s s' n :
  (∀ k, k < n → elems (pq s') !! k = elems (pq s) !! k) →
  (∀ p, pri (mem s') p = pri (mem s) p) →
  ∀ k, k < n → prio s' k = prio s k.
Proof.
  intros He Hp k Hk. unfold prio. rewrite He by done.
  destruct (elems (pq s) !! k); [apply Hp|done].
Qed.

Lemma heap_upto_prefix s s' n :
  (∀ k, k < n → prio s' k = prio s k) →
  heap_upto n (prio s) → heap_upto n (prio s').
Proof.
  intros He H k Hk. pose proof (parent_lt k ltac:(lia)).
  unfold edge. rewrite !He by lia. by apply H.
Qed.

(** [heap.Push]: it returns whenever there is room in the backing array,
    with the item added to the queue, and keeps the representation
    invariant when the item was not in the queue. *)
Lemma heap_Push_spec x s :
  valid s → x < length (mem s) → qlen s < capacity (pq s) →
  ∃ s', heap_Push x s = Ok tt s' ∧
        elems (pq s') ≡ₚ x :: elems (pq s) ∧
        (∀ p, p ∉ elems (pq s) → p ≠ x → mem s' !! p = mem s !! p) ∧
        same_payload s s' ∧
        (wf s → x ∉ elems (pq s) → wf s').
Proof.
  intros Hv Hx Hc.
  destruct (IntQueue_Push_spec x s Hx Hc) as (s1 & E1 & He1 & Hi1 & Ho1 & Y1).
  assert (qlen s1 = S (qlen s)) as Hq1.
  { unfold qlen. rewrite He1, length_app. simpl. lia. }
  assert (valid s1) as Hv1.
  { intros p. rewrite He1, (same_payload_length _ _ Y1).
    intros [?| ->%list_elem_of_singleton]%elem_of_app; auto. }
  destruct (up_loop_spec (S (qlen s1)) (qlen s) s1 (qlen s1))
    as (s' & E2 & R2 & Hh); [done|lia..|].
  exists s'. split.
  { unfold heap_Push, bind. rewrite E1. unfold Len, up.
    replace (Z.of_nat (qlen s1) - 1)%Z with (Z.of_nat (qlen s)) by lia. done. }
  pose proof (sr_payload _ _ _ R2) as Y2.
  split; [|split; [|split]].
  - rewrite (sr_perm _ _ _ R2), He1. by rewrite Permutation_app_comm.
  - intros p Hp Hpx. rewrite (sr_off _ _ _ R2), Ho1; [done..|].
    rewrite He1. intros [?| ->%list_elem_of_singleton]%elem_of_app; done.
  - by eapply same_payload_trans.
  - intros [Wc Wi Wh] Hxn.
    assert (∀ k, k < qlen s → prio s1 k = prio s k) as Hpre.
    { apply prio_prefix; [|intros; by apply same_payload_pri].
      intros k Hk. rewrite He1. by apply lookup_app_l. }
    split.
    + unfold cap_ok. rewrite (sift_rel_qlen _ _ _ R2), Hq1, (sp_cap _ _ Y2), (sp_cap _ _ Y1).
      lia.
    + apply (sr_index _ _ _ R2). intros k p. rewrite He1.
      intros [[_ Hk]|[-> <-]]%lookup_snoc_Some; [|done].
      rewrite Ho1; [by apply Wi|]. intros ->. apply Hxn.
      by eapply list_elem_of_lookup_2.
    + unfold heap_ok. rewrite (sift_rel_qlen _ _ _ R2). apply Hh. rewrite Hq1. split.
      * intros k Hk Hkn. pose proof (parent_lt k ltac:(lia)).
        unfold edge. rewrite !Hpre by lia. apply Wh. lia.
      * intros k Hk Hpk. pose proof (parent_lt k ltac:(lia)). lia.
Qed.

Lemma heap_Push_full x s :
  capacity (pq s) ≤ qlen s → heap_Push x s = Panic SliceBoundsOutOfRange s.
Proof. intros Hc. unfold heap_Push, bind. by rewrite IntQueue_Push_full. Qed.
End Methods.

(** ** Removing from the queue *)

Section Removal.
Implicit Types (s : state) (n k i j : nat).

(** The sifting part of [heap.Remove]: the item at [i] ends in the last
    cell and the cells before it are in heap order again. *)
Lemma remove_sift i n r s :
  valid s → qlen s = S n → elems (pq s) !! i = Some r →
  ∃ s1, (if negb (Z.of_nat n =? Z.of_nat i)%Z
         then Swap (Z.of_nat i) (Z.of_nat n) ;;;
              moved <- down (Z.of_nat i) (Z.of_nat n) ;;
              if negb moved then up (Z.of_nat i) else ret tt
         else ret tt) s = Ok tt s1 ∧
        sift_rel (S n) s s1 ∧
        elems (pq s1) !! n = Some r ∧
        (heap_upto (S n) (prio s) → heap_upto n (prio s1)).
Proof.
  intros Hv Hn Hr. pose proof (lookup_lt_Some _ _ _ Hr) as Hi. fold (qlen s) in Hi.
  destruct (decide (i = n)) as [->|Hin].
  { rewrite Z.eqb_refl. cbn [negb]. exists s. split; [done|].
    split; [apply sift_rel_refl|]. split; [done|]. apply heap_upto_le; lia. }
  rewrite (proj2 (Z.eqb_neq _ _)) by lia. cbn [negb].
  destruct (Swap_rel i n s) as (s1 & E1 & R1 & Hl1 & Hf1); [done|lia..|].
  replace (S (max i n)) with (S n) in R1 by lia.
  pose proof (sift_rel_valid _ _ _ R1 Hv) as Hv1.
  pose proof (sift_rel_qlen _ _ _ R1) as Hq1.
  destruct (down_loop_spec (S (qlen s1)) i i n s1)
    as (b & s2 & E2 & R2 & _ & Hb & Hh2); [done|lia..|].
  assert (sift_rel (S n) s1 s2) as R2'
    by (eapply sift_rel_mono; [|exact R2]; lia).
  unfold bind at 1. rewrite E1. unfold bind at 1, down. rewrite E2.
  assert (heap_upto (S n) (prio s) → down_inv n i (prio s1)) as Hd.
  { intros H. eapply down_inv_ext; [done|]. apply heap_replace_down_inv; [done|lia]. }
  destruct b; cbn [negb].
  - exists s2. split; [done|]. split; [by eapply sift_rel_trans|]. split.
    + rewrite (sr_above _ _ _ R2) by lia. by rewrite Hl1.
    + intros H. apply Hh2; [auto|lia].
  - rewrite (Hb eq_refl) in *. clear Hb R2 R2' E2.
    destruct (up_loop_spec (S (qlen s1)) i s1 n) as (s3 & E3 & R3 & Hh3); [done|lia..|].
    assert (sift_rel (S n) s1 s3) as R3'
      by (eapply sift_rel_mono; [|exact R3]; lia).
    exists s3. split; [done|]. split; [by eapply sift_rel_trans|]. split.
    + rewrite (sr_above _ _ _ R3) by lia. by rewrite Hl1.
    + intros H. apply Hh3. destruct (Hd H) as [D1 D2]. split; [|done].
      intros k Hk Hki. destruct (decide (parent k = i)) as [Hp|Hp].
      * apply Hh2; [auto|lia|done..].
      * by apply D1.
Qed.

(** [heap.Remove] at an occupied position: it returns the pointer that
    was there, detached, and leaves a queue of the other pointers. *)
Lemma heap_Remove_spec i r s :
  valid s → elems (pq s) !! i = Some r →
  ∃ s', heap_Remove (Z.of_nat i) s = Ok r s' ∧
        elems (pq s) ≡ₚ r :: elems (pq s') ∧
        index <$> mem s' !! r = Some (-1)%Z ∧
        (∀ p, p ∉ elems (pq s) → mem s' !! p = mem s !! p) ∧
        same_payload s s' ∧
        (wf s → wf s').
Proof.
  intros Hv Hr. pose proof (lookup_lt_Some _ _ _ Hr) as Hi. fold (qlen s) in Hi.
  destruct (qlen s) as [|n] eqn:Hn; [lia|].
  destruct (remove_sift i n r s Hv Hn Hr) as (s1 & E1 & R1 & Hr1 & Hh1).
  pose proof (sift_rel_valid _ _ _ R1 Hv) as Hv1.
  pose proof (sift_rel_qlen _ _ _ R1) as Hq1. rewrite Hn in Hq1.
  destruct (IntQueue_Pop_spec n r s1 Hv1 Hq1 Hr1) as (s' & E2 & He2 & Hi2 & Ho2 & Y2).
  assert (heap_Remove (Z.of_nat i) s = Ok r s') as E.
  { unfold heap_Remove, bind at 1, Len. rewrite Hn. cbv zeta.
    replace (Z.of_nat (S n) - 1)%Z with (Z.of_nat n) by lia.
    unfold bind at 1. by rewrite E1. }
  assert (r ∈ elems (pq s)) as Hrs by (by eapply list_elem_of_lookup_2).
  exists s'. split; [done|]. split; [|split; [done|split; [|split]]].
  - rewrite <- (sr_perm _ _ _ R1), He2.
    rewrite (take_last_cell (elems (pq s1)) n r) at 1 by done.
    by rewrite Permutation_app_comm.
  - intros p Hp. rewrite Ho2, (sr_off _ _ _ R1); [done..|]. by intros ->.
  - by eapply keeps_heap_Remove.
  - intros [Wc Wi Wh]. pose proof (sr_index _ _ _ R1 Wi) as Wi1.
    assert (∀ k, k < n → prio s' k = prio s1 k) as Hpre.
    { apply prio_prefix; [|intros; by apply same_payload_pri].
      intros k Hk. rewrite He2. by apply lookup_take_lt. }
    split.
    + unfold cap_ok, qlen in *. rewrite He2, length_take, (sp_cap _ _ Y2),
        (sp_cap _ _ (sr_payload _ _ _ R1)). lia.
    + intros k p. rewrite He2. intros [Hk Hlt]%lookup_take_Some.
      rewrite Ho2; [by apply Wi1|]. intros ->.
      pose proof (index_ok_inj _ _ _ _ Wi1 Hk Hr1). lia.
    + unfold heap_ok. replace (qlen s') with n.
      * apply (heap_upto_prefix s1); [done|]. apply Hh1.
        unfold heap_ok in Wh. by rewrite Hn in Wh.
      * unfold qlen in *. rewrite He2, length_take. lia.
Qed.

Lemma up_root s : up 0 s = Ok tt s.
Proof. done. Qed.

(** Popping is removing at the root. *)
Lemma heap_Pop_Remove s : heap_Pop s = heap_Remove 0 s.
Proof.
  unfold heap_Pop, heap_Remove, bind at 1 5, Len. cbv zeta.
  destruct (Z.of_nat (qlen s) - 1 =? 0)%Z eqn:En; cbn [negb].
  - destruct s as [m [[|p [|q l]] c]]; try (unfold qlen in En; simpl in En; lia).
    unfold qlen. simpl length. change (Z.of_nat 1 - 1)%Z with 0%Z.
    unfold bind, Swap, bind, ret. rewrite (get_elem_nat 0). simpl.
    unfold modify. simpl. destruct (m !! p) as [it|] eqn:Eit.
    2: { unfold IntQueue_Pop, bind, Len, get_elem, modify. simpl. by rewrite Eit. }
    pose proof (lookup_lt_Some _ _ _ Eit).
    unfold get_elem. simpl. rewrite list_lookup_insert_eq by done.
    unfold IntQueue_Pop, bind, Len, get_elem, modify. simpl.
    rewrite list_lookup_insert_eq by (by rewrite length_insert).
    rewrite Eit. by rewrite !list_insert_insert_eq.
  - unfold bind. rewrite En. cbn [negb].
    destruct (Swap _ _ s) as [[] s1| |]; [|done..].
    destruct (down _ _ s1) as [[] s2| |]; done.
Qed.

Lemma heap_Pop_spec r s :
  valid s → elems (pq s) !! 0 = Some r →
  ∃ s', heap_Pop s = Ok r s' ∧
        elems (pq s) ≡ₚ r :: elems (pq s') ∧
        index <$> mem s' !! r = Some (-1)%Z ∧
        (∀ p, p ∉ elems (pq s) → mem s' !! p = mem s !! p) ∧
        same_payload s s' ∧
        (wf s → wf s').
Proof. rewrite heap_Pop_Remove. apply (heap_Remove_spec 0). Qed.
End Removal.

(** ** Rewriting an item and putting it back *)

Section Reinsert.
Implicit Types (s : state) (n k i j : nat) (it : Item).

(** The invariant does not see items outside the queue. *)
Lemma wf_frame s s' :
  elems (pq s') = elems (pq s) → capacity (pq s') = capacity (pq s) →
  (∀ p, p ∈ elems (pq s) → mem s' !! p = mem s !! p) →
  wf s → wf s'.
Proof.
  intros He Hc Hm [Wc Wi Wh].
  assert (∀ k, prio s' k = prio s k) as Hp.
  { intros k. unfold prio, pri. rewrite He.
    destruct (elems (pq s) !! k) as [p|] eqn:E; [simpl|done].
    rewrite Hm; [done|]. by eapply list_elem_of_lookup_2. }
  split.
  - unfold cap_ok, qlen. by rewrite He, Hc.
  - intros k p. rewrite He. intros Hk. rewrite Hm; [by apply Wi|].
    by eapply list_elem_of_lookup_2.
  - unfold heap_ok, qlen. rewrite He. by eapply heap_upto_ext.
Qed.

Lemma modify_detached x f it s :
  mem s !! x = Some it → x ∉ elems (pq s) →
  ∃ s', modify x f s = Ok tt s' ∧
        pq s' = pq s ∧
        mem s' !! x = Some (f it) ∧
        (∀ q, q ≠ x → mem s' !! q = mem s !! q) ∧
        (valid s → valid s') ∧
        (wf s → wf s').
Proof.
  intros Hx Hn. pose proof (lookup_lt_Some _ _ _ Hx).
  exists (mkState (<[x := f it]> (mem s)) (pq s)).
  split; [unfold modify; by rewrite Hx|]. simpl.
  split; [done|]. split; [by apply list_lookup_insert_eq|].
  split; [intros; by apply list_lookup_insert_ne|]. split.
  - intros Hv p Hp. simpl. rewrite length_insert. by apply Hv.
  - apply wf_frame; [done..|]. simpl. intros p Hp.
    apply list_lookup_insert_ne. by intros ->.
Qed.

(** What [changePriority] and [update] do after the removal:
    rewrite the detached item [x] with [f] and push it. *)
Lemma reinsert_spec x f it s :
  valid s → mem s !! x = Some it → x ∉ elems (pq s) → qlen s < capacity (pq s) →
  ∃ s', (modify x f ;;; heap_Push x) s = Ok tt s' ∧
        elems (pq s') ≡ₚ x :: elems (pq s) ∧
        value <$> mem s' !! x = Some (value (f it)) ∧
        priority <$> mem s' !! x = Some (priority (f it)) ∧
        (∀ q, q ≠ x → value <$> mem s' !! q = value <$> mem s !! q) ∧
        (∀ q, q ≠ x → priority <$> mem s' !! q = priority <$> mem s !! q) ∧
        (∀ q, q ∉ elems (pq s) → q ≠ x → mem s' !! q = mem s !! q) ∧
        (wf s → wf s').
Proof.
  intros Hv Hx Hn Hc.
  destruct (modify_detached x f it s Hx Hn) as (s1 & E1 & Hq1 & Hx1 & Ho1 & Hv1 & Hw1).
  destruct (heap_Push_spec x s1) as (s' & E2 & Hp2 & Ho2 & Y2 & Hw2).
  { auto. } { by eapply lookup_lt_Some. } { unfold qlen. by rewrite Hq1. }
  exists s'. split; [unfold bind; by rewrite E1|].
  rewrite Hq1 in *.
  split; [done|]. split; [|split; [|split; [|split; [|split]]]].
  - by rewrite (sp_value _ _ Y2), Hx1.
  - by rewrite (sp_priority _ _ Y2), Hx1.
  - intros q Hq. by rewrite (sp_value _ _ Y2), Ho1.
  - intros q Hq. by rewrite (sp_priority _ _ Y2), Ho1.
  - intros q Hq Hqx. by rewrite Ho2, Ho1.
  - auto.
Qed.

Lemma perm_cons_not_in (r : nat) (l l' : list nat) :
  NoDup l → l ≡ₚ r :: l' → r ∉ l'.
Proof. intros Hd Hp. rewrite Hp in Hd. by apply NoDup_cons_1_1 in Hd. Qed.
End Reinsert.

(** ** The two rewriting operations *)

Section Rewriting.
Implicit Types (s : state) (n k i j : nat) (it : Item).

Lemma lookup_fmap_Some {A} (g : Item → A) (m : list Item) x a :
  g <$> m !! x = Some a → ∃ it, m !! x = Some it ∧ g it = a.
Proof. destruct (m !! x) as [it|]; [|done]. intros [= <-]. eauto. Qed.

(** [changePriority] on an item whose recorded index is the position [k]:
    the occupant [r] of [k] is taken out and the item is pushed with the
    new priority. *)
Lemma changePriority_spec k r x it p s :
  wf s → mem s !! x = Some it → index it = Z.of_nat k →
  elems (pq s) !! k = Some r → (x = r ∨ x ∉ elems (pq s)) →
  ∃ s' l, changePriority x p s = Ok tt s' ∧
          elems (pq s) ≡ₚ r :: l ∧ elems (pq s') ≡ₚ x :: l ∧
          value <$> mem s' !! x = Some (value it) ∧
          priority <$> mem s' !! x = Some p ∧
          (∀ q, q ≠ x → value <$> mem s' !! q = value <$> mem s !! q) ∧
          (∀ q, q ≠ x → priority <$> mem s' !! q = priority <$> mem s !! q) ∧
          wf s'.
Proof.
  intros W Hx Hix Hr Hxr. pose proof (index_ok_valid _ (wf_index _ W)) as Hv.
  destruct (heap_Remove_spec k r s Hv Hr) as (s1 & E1 & P1 & _ & O1 & Y1 & W1).
  specialize (W1 W).
  assert (x ∉ elems (pq s1)) as Hn1.
  { destruct Hxr as [->|Hn].
    - eapply perm_cons_not_in; [|done]. by apply index_ok_NoDup, wf_index.
    - intros Hin. apply Hn. rewrite P1. by right. }
  pose proof (sp_value _ _ Y1 x) as Hval. rewrite Hx in Hval.
  apply lookup_fmap_Some in Hval as (it1 & Hx1 & Hval).
  assert (qlen s1 < capacity (pq s1)) as Hc1.
  { pose proof (wf_cap _ W) as Hc. unfold cap_ok, qlen in *.
    rewrite (sp_cap _ _ Y1). apply Permutation_length in P1. simpl in P1. lia. }
  destruct (reinsert_spec x (set_priority p) it1 s1)
    as (s' & E2 & P2 & Hv2 & Hp2 & Hov & Hop & _ & W2);
    [by apply index_ok_valid, wf_index|done..|].
  exists s', (elems (pq s1)).
  split.
  { unfold changePriority, bind at 1, load. rewrite Hx, Hix.
    unfold bind at 1. by rewrite E1. }
  split; [done|]. split; [done|]. split; [by rewrite Hv2, <- Hval|].
  split; [done|]. split; [|split; [|auto]].
  - intros q Hq. by rewrite Hov, (sp_value _ _ Y1).
  - intros q Hq. by rewrite Hop, (sp_priority _ _ Y1).
Qed.

(** [update]: the root item is taken out, rewritten and pushed. *)
Lemma update_spec r v p s :
  wf s → elems (pq s) !! 0 = Some r →
  ∃ s', update v p s = Ok tt s' ∧
        elems (pq s') ≡ₚ elems (pq s) ∧
        value <$> mem s' !! r = Some v ∧
        priority <$> mem s' !! r = Some p ∧
        (∀ q, q ≠ r → value <$> mem s' !! q = value <$> mem s !! q) ∧
        (∀ q, q ≠ r → priority <$> mem s' !! q = priority <$> mem s !! q) ∧
        wf s'.
Proof.
  intros W Hr. pose proof (index_ok_valid _ (wf_index _ W)) as Hv.
  destruct (heap_Pop_spec r s Hv Hr) as (s1 & E1 & P1 & I1 & O1 & Y1 & W1).
  specialize (W1 W).
  assert (r ∉ elems (pq s1)) as Hn1.
  { eapply perm_cons_not_in; [|done]. by apply index_ok_NoDup, wf_index. }
  apply lookup_fmap_Some in I1 as (it1 & Hx1 & _).
  destruct (modify_detached r (set_value v) it1 s1 Hx1 Hn1)
    as (s2 & E2 & Hq2 & Hx2 & Ho2 & Hv2 & W2).
  assert (qlen s2 < capacity (pq s2)) as Hc2.
  { pose proof (wf_cap _ W) as Hc. unfold cap_ok, qlen in *.
    rewrite Hq2, (sp_cap _ _ Y1). apply Permutation_length in P1. simpl in P1. lia. }
  destruct (reinsert_spec r (set_priority p) (set_value v it1) s2)
    as (s' & E3 & P3 & Hv3 & Hp3 & Hov & Hop & _ & W3);
    [by apply Hv2, index_ok_valid, wf_index|done|by rewrite Hq2|done|].
  exists s'. split.
  { unfold update, bind at 1. rewrite E1. unfold bind at 1. by rewrite E2. }
  rewrite Hq2 in P3.
  split; [by rewrite P3, P1|]. split; [done|]. split; [done|].
  split; [|split; [|auto]].
  - intros q Hq. by rewrite Hov, Ho2, (sp_value _ _ Y1).
  - intros q Hq. by rewrite Hop, Ho2, (sp_priority _ _ Y1).
Qed.
End Rewriting.

(** ** The loop budget is never used up *)

Section Fuel.
Implicit Types (s : state).

Lemma total_bind {A B} (m : M A) (k : A → M B) :
  total m → (∀ a, total (k a)) → total (bind m k).
Proof.
  intros Hm Hk s. unfold bind. specialize (Hm s).
  destruct (m s); [apply Hk|done..].
Qed.

Lemma get_elem_inv i s p s' :
  get_elem i s = Ok p s' → s' = s ∧ (0 ≤ i < Z.of_nat (qlen s))%Z.
Proof.
  unfold get_elem. destruct (_ || _) eqn:E; [done|].
  destruct (_ !! _); [|done]. intros [= _ <-]. split; [done|lia].
Qed.

Lemma total_get_elem i : total (get_elem i).
Proof. intros s. unfold get_elem. by repeat case_match. Qed.

Lemma total_set_elem i p : total (set_elem i p).
Proof. intros s. unfold set_elem. by repeat case_match. Qed.

Lemma total_load p : total (load p).
Proof. intros s. unfold load. by repeat case_match. Qed.

Lemma total_modify p f : total (modify p f).
Proof. intros s. unfold modify. by repeat case_match. Qed.

Lemma total_Less i j : total (Less i j).
Proof.
  unfold Less. repeat (apply total_bind; [apply total_get_elem || apply total_load|intros ?]).
  done.
Qed.

Lemma total_Swap i j : total (Swap i j).
Proof.
  unfold Swap.
  repeat (apply total_bind;
          [apply total_get_elem || apply total_set_elem || apply total_modify|intros ?]).
  apply total_modify.
Qed.

Lemma Less_inv i j s b s' :
  Less i j s = Ok b s' →
  s' = s ∧ (0 ≤ i < Z.of_nat (qlen s))%Z ∧ (0 ≤ j < Z.of_nat (qlen s))%Z.
Proof.
  unfold Less, bind, load.
  destruct (get_elem i s) as [pi s1| |] eqn:E1; [|done..].
  apply get_elem_inv in E1 as [-> ?].
  destruct (mem s !! pi); [|done].
  destruct (get_elem j s) as [pj s2| |] eqn:E2; [|done..].
  apply get_elem_inv in E2 as [-> ?].
  destruct (mem s !! pj); [|done]. by intros [= _ <-].
Qed.

Lemma Swap_qlen i j s s' : Swap i j s = Ok tt s' → qlen s' = qlen s.
Proof.
  unfold Swap, bind.
  destruct (get_elem j s) as [pj s1| |] eqn:E1; [|done..].
  apply get_elem_inv in E1 as [-> ?].
  destruct (get_elem i s) as [pi s1| |] eqn:E2; [|done..].
  apply get_elem_inv in E2 as [-> ?].
  unfold set_elem at 1. destruct (_ || _); [done|].
  unfold set_elem at 1. destruct (_ || _); [done|]. simpl.
  destruct (get_elem i _) as [p s1| |] eqn:E3; [|done..].
  apply get_elem_inv in E3 as [-> _].
  unfold modify at 1. simpl. destruct (mem s !! p); [|done].
  destruct (get_elem j _) as [q s1| |] eqn:E4; [|done..].
  apply get_elem_inv in E4 as [-> _].
  unfold modify. simpl. destruct (_ !! q); [|done]. intros [= <-].
  unfold qlen. simpl. by rewrite !length_insert.
Qed.

Lemma up_loop_fuel fuel : ∀ j s,
  0 < fuel → ((0 ≤ j < Z.of_nat (qlen s))%Z → (j < Z.of_nat fuel)%Z) →
  up_loop fuel j s ≠ OutOfFuel.
Proof.
  induction fuel as [|fuel IH]; intros j s Hf Hj; [lia|].
  simpl. destruct (_ =? j)%Z eqn:Eij; [done|].
  unfold bind at 1. destruct (Less _ _ s) as [b s1| |] eqn:EL; [|done|].
  2: by apply total_Less in EL.
  apply Less_inv in EL as (-> & Hjr & Hir).
  destruct b; simpl; [|done].
  unfold bind. destruct (Swap _ _ s) as [[] s1| |] eqn:ES; [|done|].
  2: by apply total_Swap in ES.
  apply Swap_qlen in ES. apply IH; lia.
Qed.

Lemma down_loop_fuel fuel : ∀ i0 i n s,
  0 < fuel →
  ((0 ≤ i < Z.of_nat (qlen s))%Z → (Z.of_nat (qlen s) < Z.of_nat fuel + i)%Z) →
  down_loop fuel i0 i n s ≠ OutOfFuel.
Proof.
  induction fuel as [|fuel IH]; intros i0 i n s Hf Hi; [lia|].
  simpl. destruct (_ || _) eqn:Estop; [done|].
  assert (∀ j, ((0 ≤ i → i < j)%Z) →
            (c <- Less j i ;;
             if negb c then ret (i >? i0)%Z
             else Swap i j ;;; down_loop fuel i0 j n) s ≠ OutOfFuel) as Hrest.
  { intros j Hj. unfold bind at 1.
    destruct (Less _ _ s) as [c s1| |] eqn:EL; [|done|].
    2: by apply total_Less in EL.
    apply Less_inv in EL as (-> & Hjr & Hir).
    destruct c; simpl; [|done].
    unfold bind. destruct (Swap _ _ s) as [[] s1| |] eqn:ES; [|done|].
    2: by apply total_Swap in ES.
    apply Swap_qlen in ES. apply IH; lia. }
  unfold bind at 1. destruct (2 * i + 1 + 1 <? n)%Z.
  - destruct (Less _ _ s) as [b s1| |] eqn:EB; [|done|].
    2: by apply total_Less in EB.
    apply Less_inv in EB as (-> & _ & _). apply Hrest. destruct b; lia.
  - apply Hrest. lia.
Qed.

Lemma total_up j : total (up j).
Proof. intros s. apply up_loop_fuel; lia. Qed.

Lemma total_down i n : total (down i n).
Proof. intros s. apply down_loop_fuel; lia. Qed.

Lemma total_IntQueue_Push x : total (IntQueue_Push x).
Proof.
  intros s. unfold IntQueue_Push. case_match; [done|].
  unfold bind, modify. by destruct (mem s !! x).
Qed.

Lemma total_IntQueue_Pop : total IntQueue_Pop.
Proof.
  intros s. unfold IntQueue_Pop, bind, Len, modify.
  destruct (get_elem _ s) as [p s1| |] eqn:E; [|done|by apply total_get_elem in E].
  by destruct (mem s1 !! p).
Qed.

(** Every operation of the queue returns or panics: the budget given to
    [up] and [down] always suffices. *)
Lemma operations_total :
  (∀ x, total (heap_Push x)) ∧ total heap_Pop ∧ (∀ i, total (heap_Remove i)) ∧
  (∀ v p, total (update v p)) ∧ (∀ x p, total (changePriority x p)).
Proof.
  assert (∀ x, total (heap_Push x)) as HPush.
  { intros x. unfold heap_Push.
    apply total_bind; [apply total_IntQueue_Push|intros _].
    apply total_bind; [done|intros n]. apply total_up. }
  assert (∀ i, total (heap_Remove i)) as HRemove.
  { intros i. unfold heap_Remove.
    apply total_bind; [done|intros len]. cbv zeta.
    apply total_bind; [|intros _; apply total_IntQueue_Pop].
    case_match; [|done].
    apply total_bind; [apply total_Swap|intros _].
    apply total_bind; [apply total_down|intros []]; [done|apply total_up]. }
  assert (total heap_Pop) as HPop.
  { intros s. rewrite heap_Pop_Remove. apply HRemove. }
  split; [done|]. split; [done|]. split; [done|]. split.
  - intros v p. unfold update.
    apply total_bind; [done|intros item].
    repeat (apply total_bind; [apply total_modify|intros _]). apply HPush.
  - intros x p. unfold changePriority.
    apply total_bind; [apply total_load|intros it].
    apply total_bind; [apply HRemove|intros _].
    apply total_bind; [apply total_modify|intros _]. apply HPush.
Qed.
End Fuel.

(** ** The invariant of the reachable states *)

Section Reachable.
Implicit Types (s : state).

Lemma wf_initial n : wf (initial n).
Proof.
  split.
  - unfold cap_ok, qlen. simpl. lia.
  - intros k p. simpl. by rewrite lookup_nil.
  - intros k Hk. unfold qlen in Hk. simpl in Hk. lia.
Qed.

Lemma heap_Pop_empty s : qlen s = 0 → heap_Pop s = Panic IndexOutOfRange s.
Proof.
  intros H. unfold heap_Pop, bind at 1, Len. rewrite H.
  unfold bind at 1, Swap, bind at 1. by rewrite get_elem_out by lia.
Qed.

Lemma wf_step s s' : wf s → step s s' → wf s'.
Proof.
  intros W Hs. pose proof (index_ok_valid _ (wf_index _ W)) as Hv.
  destruct Hs as [s it|s x it Hx Hn|s x s' Hx Hn E|s r s' E|s x p s' Hx E|s v p s' E].
  - revert W. apply wf_frame; [done..|]. simpl. intros p Hp.
    apply lookup_app_l. by apply Hv.
  - revert W. apply wf_frame; [done..|]. simpl. intros p Hp.
    apply list_lookup_insert_ne. by intros ->.
  - destruct (decide (qlen s < capacity (pq s))) as [Hc|Hc].
    + destruct (heap_Push_spec x s Hv Hx Hc) as (s1 & E1 & _ & _ & _ & W1).
      rewrite E1 in E. simplify_eq. auto.
    + rewrite heap_Push_full in E by lia. done.
  - destruct (elems (pq s) !! 0) as [r0|] eqn:Hr.
    + destruct (heap_Pop_spec r0 s Hv Hr) as (s1 & E1 & _ & _ & _ & _ & W1).
      rewrite E1 in E. simplify_eq. auto.
    + apply lookup_ge_None_1 in Hr. rewrite heap_Pop_empty in E; [done|].
      unfold qlen. lia.
  - apply list_elem_of_lookup_1 in Hx as [k Hk].
    pose proof (wf_index _ W k x Hk) as Hi.
    apply lookup_fmap_Some in Hi as (it & Hit & Hi).
    destruct (changePriority_spec k x x it p s W Hit Hi Hk) as (s1 & l & E1 & H1);
      [by left|].
    rewrite E1 in E. simplify_eq. apply H1.
  - destruct (elems (pq s) !! 0) as [r0|] eqn:Hr.
    + destruct (update_spec r0 v p s W Hr) as (s1 & E1 & H1).
      rewrite E1 in E. simplify_eq. apply H1.
    + apply lookup_ge_None_1 in Hr. unfold update, bind in E.
      rewrite heap_Pop_empty in E; [done|]. unfold qlen. lia.
Qed.

Lemma reachable_wf s : reachable s → wf s.
Proof. induction 1; eauto using wf_initial, wf_step. Qed.
End Reachable.

(** ** The sample states are reachable *)

Lemma one_spare_reachable : reachable one_spare.
Proof.
  apply (reach_step (initial 2)); [apply reach_init|].
  apply (step_alloc (initial 2) (mkItem 0 5 0)).
Qed.

Lemma two_items_reachable : reachable two_items.
Proof.
  apply (reach_step (mkState [mkItem 0 5 0; mkItem 1 9 0] (mkQueue [0] 2))).
  apply (reach_step (mkState [mkItem 0 5 0; mkItem 1 9 0] (NewIntQueue 2))).
  apply (reach_step one_spare); [apply one_spare_reachable|].
  - apply (step_alloc one_spare (mkItem 1 9 0)).
  - apply (step_push _ 0); [simpl; lia|by apply not_elem_of_nil|done].
  - apply (step_push _ 1); [simpl; lia| |done].
    simpl. by intros ?%list_elem_of_singleton.
Qed.

Lemma with_stranger_reachable : reachable with_stranger.
Proof.
  apply (reach_step two_items); [apply two_items_reachable|].
  apply (step_alloc two_items (mkItem 2 7 0)).
Qed.

Lemma full_queue_reachable : reachable full_queue.
Proof.
  apply (reach_step (mkState [mkItem 0 5 0; mkItem 1 9 0] (NewIntQueue 1))).
  apply (reach_step (mkState [mkItem 0 5 0] (NewIntQueue 1))).
  apply (reach_step (initial 1)); [apply reach_init|].
  - apply (step_alloc (initial 1) (mkItem 0 5 0)).
  - apply (step_alloc (mkState [mkItem 0 5 0] (NewIntQueue 1)) (mkItem 1 9 0)).
  - apply (step_push _ 0); [simpl; lia|by apply not_elem_of_nil|done].
Qed.

(** ** The properties of the specification *)

Section RootMax.
Implicit Types (s : state).

Lemma wf_lookup s k p :
  wf s → elems (pq s) !! k = Some p → ∃ a, mem s !! p = Some a ∧ prio s k = priority a.
Proof.
  intros W Hk. pose proof (index_ok_valid _ (wf_index _ W)) as Hv.
  destruct (valid_lookup _ _ _ Hv Hk) as [a Ha]. exists a. split; [done|].
  unfold prio, pri. rewrite Hk. simpl. by rewrite Ha.
Qed.

(** In a well-formed queue the root holds a maximal priority. *)
Lemma root_is_max s r it :
  wf s → elems (pq s) !! 0 = Some r → mem s !! r = Some it →
  ∀ q b, q ∈ elems (pq s) → mem s !! q = Some b → (priority b ≤ priority it)%Z.
Proof.
  intros W Hr Hit q b [k Hk]%list_elem_of_lookup_1 Hb.
  destruct (wf_lookup _ _ _ W Hr) as (a0 & Ha0 & E0).
  destruct (wf_lookup _ _ _ W Hk) as (a1 & Ha1 & E1).
  simplify_eq. rewrite <- E0, <- E1.
  apply (heap_root_max _ (qlen s)); [apply W|]. by eapply lookup_lt_Some.
Qed.
End RootMax.

(** C1.  The demonstration of [main]: ten items with priorities
    77, 22, 44, 55, 11, 88, 33, 99, 0, 66 and values 0 to 9 are pushed into
    the queue made by [NewIntQueue(10)]; ten pops then print the pairs
    (99,7) (88,5) (77,0) (66,9) (55,3) (44,2) (33,6) (22,1) (11,4) (0,8),
    whose priorities are strictly decreasing. *)
Theorem main_prints_by_priority :
  ∃ out, printed main = Some out ∧
         out = [(99, 7); (88, 5); (77, 0); (66, 9); (55, 3);
                (44, 2); (33, 6); (22, 1); (11, 4); (0, 8)]%Z ∧
         StronglySorted (fun a b => (a > b)%Z) (out.*1).
Proof.
  eexists. split; [vm_compute; reflexivity|]. split; [reflexivity|].
  simpl. repeat (constructor; [|repeat (constructor; [lia|]); constructor]).
  constructor.
Qed.

(** C2.  Heap order is an invariant of the reachable states: at every
    non-root position of the queue, the item at the parent position has a
    priority greater than or equal to that of the item at the position. *)
Theorem heap_order_reachable s :
  reachable s →
  ∀ i p, 0 < i → elems (pq s) !! i = Some p →
  ∃ q a b, elems (pq s) !! parent i = Some q ∧
           mem s !! p = Some a ∧ mem s !! q = Some b ∧
           (priority a ≤ priority b)%Z.
Proof.
  intros W%reachable_wf i p Hi Hp.
  pose proof (lookup_lt_Some _ _ _ Hp) as Hlt.
  pose proof (parent_lt i Hi) as Hpar.
  destruct (lookup_lt_is_Some_2 (elems (pq s)) (parent i)) as [q Hq]; [lia|].
  destruct (wf_lookup _ _ _ W Hp) as (a & Ha & Ea).
  destruct (wf_lookup _ _ _ W Hq) as (b & Hb & Eb).
  exists q, a, b. repeat split; try done.
  rewrite <- Ea, <- Eb. apply (wf_heap _ W). unfold qlen. lia.
Qed.

Lemma heap_order_reachable_witness :
  reachable two_items ∧
  ∃ q a b, elems (pq two_items) !! parent 1 = Some q ∧
           mem two_items !! 0 = Some a ∧ mem two_items !! q = Some b ∧
           (priority a ≤ priority b)%Z.
Proof.
  split; [apply two_items_reachable|].
  apply (heap_order_reachable two_items two_items_reachable 1 0); [lia|reflexivity].
Defined.

(** C3.  Index consistency is an invariant of the reachable states: the
    item stored at position [i] of the queue has its [index] field equal to
    [i]; hence items at different positions carry different indices. *)
Theorem index_consistency_reachable s :
  reachable s →
  (∀ i p, elems (pq s) !! i = Some p →
          ∃ a, mem s !! p = Some a ∧ index a = Z.of_nat i) ∧
  (∀ i j p q a b, i ≠ j →
     elems (pq s) !! i = Some p → elems (pq s) !! j = Some q →
     mem s !! p = Some a → mem s !! q = Some b →
     p ≠ q ∧ index a ≠ index b).
Proof.
  intros W%reachable_wf.
  assert (∀ i p, elems (pq s) !! i = Some p →
            ∃ a, mem s !! p = Some a ∧ index a = Z.of_nat i) as H.
  { intros i p Hp. by apply lookup_fmap_Some, (wf_index _ W). }
  split; [done|].
  intros i j p q a b Hij Hp Hq Ha Hb.
  destruct (H i p Hp) as (a' & Ha' & Ea). destruct (H j q Hq) as (b' & Hb' & Eb).
  assert (index a ≠ index b) by (simplify_eq; lia).
  split; [|done]. intros ->. simplify_eq.
Qed.

Lemma index_consistency_reachable_witness :
  reachable two_items ∧
  (∀ i p, elems (pq two_items) !! i = Some p →
          ∃ a, mem two_items !! p = Some a ∧ index a = Z.of_nat i).
Proof.
  split; [apply two_items_reachable|].
  apply (index_consistency_reachable two_items two_items_reachable).
Defined.

Lemma two_items_wf : wf two_items.
Proof. apply reachable_wf, two_items_reachable. Qed.

Lemma with_stranger_wf : wf with_stranger.
Proof. apply reachable_wf, with_stranger_reachable. Qed.

Lemma one_spare_valid : valid one_spare.
Proof. apply index_ok_valid, wf_index, reachable_wf, one_spare_reachable. Qed.

(** C4, as the code has it.  [heap.Push] of an allocated item returns
    exactly when the queue is shorter than its capacity, and the queue is
    then one longer; on a queue that fills its capacity it panics with a
    slice-bounds error, in the state it was called in. *)
Theorem heap_Push_within_capacity s x :
  valid s → x < length (mem s) →
  (qlen s < capacity (pq s) →
   ∃ s', heap_Push x s = Ok tt s' ∧ qlen s' = S (qlen s)) ∧
  (capacity (pq s) ≤ qlen s →
   heap_Push x s = Panic SliceBoundsOutOfRange s).
Proof.
  intros Hv Hx. split; [|apply heap_Push_full].
  intros Hc. destruct (heap_Push_spec x s Hv Hx Hc) as (s' & E & P & _).
  exists s'. split; [done|]. unfold qlen. by rewrite P.
Qed.

Lemma heap_Push_within_capacity_witness :
  valid one_spare ∧ 0 < length (mem one_spare) ∧
  ∃ s', heap_Push 0 one_spare = Ok tt s' ∧ qlen s' = S (qlen one_spare).
Proof.
  split; [apply one_spare_valid|]. split; [simpl; lia|].
  apply (heap_Push_within_capacity one_spare 0 one_spare_valid); unfold qlen; simpl; lia.
Defined.

(** C4, as the spec has it, fails: the queue made by [NewIntQueue(1)] holds
    one item, and pushing a second one panics. *)
Lemma heap_Push_full_queue_panics :
  valid full_queue ∧ 1 < length (mem full_queue) ∧
  heap_Push 1 full_queue = Panic SliceBoundsOutOfRange full_queue ∧
  ¬ ∃ s', heap_Push 1 full_queue = Ok tt s' ∧ qlen s' = S (qlen full_queue).
Proof.
  split; [apply index_ok_valid, wf_index, reachable_wf, full_queue_reachable|].
  split; [simpl; lia|]. split; [reflexivity|]. by intros (s' & E & _).
Qed.

(** C5.  [heap.Pop] on a non-empty queue returns the item at the root,
    whose priority is maximal among the items of the queue before the call;
    the queue is one shorter afterwards, it no longer holds the item, and
    the item keeps its value and priority and has its index set to -1,
    which is not a position of any queue. *)
Theorem heap_Pop_max s :
  wf s → qlen s ≠ 0 →
  ∃ r it it' s',
    heap_Pop s = Ok r s' ∧
    elems (pq s) !! 0 = Some r ∧ mem s !! r = Some it ∧
    (∀ q b, q ∈ elems (pq s) → mem s !! q = Some b →
            (priority b ≤ priority it)%Z) ∧
    S (qlen s') = qlen s ∧ (r ∉ elems (pq s')) ∧
    mem s' !! r = Some it' ∧
    value it' = value it ∧ priority it' = priority it ∧
    index it' = (-1)%Z ∧ ¬ (0 ≤ index it' < Z.of_nat (qlen s'))%Z.
Proof.
  intros W Hne. pose proof (index_ok_valid _ (wf_index _ W)) as Hv.
  destruct (lookup_lt_is_Some_2 (elems (pq s)) 0) as [r Hr]; [unfold qlen in Hne; lia|].
  destruct (valid_lookup _ _ _ Hv Hr) as [it Hit].
  destruct (heap_Pop_spec r s Hv Hr) as (s' & E & P & I & _ & Y & _).
  apply lookup_fmap_Some in I as (it' & Hit' & I).
  pose proof (sp_value _ _ Y r) as Ev. pose proof (sp_priority _ _ Y r) as Ep.
  rewrite Hit, Hit' in Ev, Ep. simpl in Ev, Ep.
  exists r, it, it', s'. split; [done|]. split; [done|]. split; [done|].
  split; [by apply (root_is_max s r it)|]. split.
  { unfold qlen. by rewrite P. }
  split.
  { eapply perm_cons_not_in; [|done]. by apply index_ok_NoDup, wf_index. }
  split; [done|]. split; [congruence|]. split; [congruence|]. split; [done|lia].
Qed.

Lemma heap_Pop_max_witness :
  wf two_items ∧ qlen two_items ≠ 0 ∧
  ∃ r it it' s',
    heap_Pop two_items = Ok r s' ∧
    elems (pq two_items) !! 0 = Some r ∧ mem two_items !! r = Some it ∧
    (∀ q b, q ∈ elems (pq two_items) → mem two_items !! q = Some b →
            (priority b ≤ priority it)%Z) ∧
    S (qlen s') = qlen two_items ∧ (r ∉ elems (pq s')) ∧
    mem s' !! r = Some it' ∧
    value it' = value it ∧ priority it' = priority it ∧
    index it' = (-1)%Z ∧ ¬ (0 ≤ index it' < Z.of_nat (qlen s'))%Z.
Proof.
  split; [apply two_items_wf|]. split; [unfold qlen; simpl; lia|].
  apply (heap_Pop_max two_items two_items_wf). unfold qlen. simpl. lia.
Defined.

(** C6.  On an empty queue, new or drained, popping fails: [heap.Pop] and
    the [Pop] method both panic with an index error instead of returning an
    item, and so does [peek]. *)
Theorem pop_peek_empty s :
  elems (pq s) = [] →
  heap_Pop s = Panic IndexOutOfRange s ∧
  IntQueue_Pop s = Panic IndexOutOfRange s ∧
  peek s = Panic IndexOutOfRange s.
Proof.
  intros He. assert (qlen s = 0) as Hq by (unfold qlen; by rewrite He).
  split; [by apply heap_Pop_empty|]. split.
  - unfold IntQueue_Pop, bind, Len. rewrite Hq. by rewrite get_elem_out by lia.
  - unfold peek. by rewrite get_elem_out by lia.
Qed.

Lemma pop_peek_empty_witness :
  elems (pq (initial 10)) = [] ∧
  heap_Pop (initial 10) = Panic IndexOutOfRange (initial 10) ∧
  IntQueue_Pop (initial 10) = Panic IndexOutOfRange (initial 10) ∧
  peek (initial 10) = Panic IndexOutOfRange (initial 10).
Proof.
  split; [reflexivity|]. apply (pop_peek_empty (initial 10)). reflexivity.
Defined.

(** C7.  [peek] on a non-empty queue returns the item at the root, whose
    priority is maximal, and leaves the whole state as it was: the queue,
    its length and every field of every item. *)
Theorem peek_max s :
  wf s → qlen s ≠ 0 →
  ∃ r it, peek s = Ok r s ∧ mem s !! r = Some it ∧
          ∀ q b, q ∈ elems (pq s) → mem s !! q = Some b →
                 (priority b ≤ priority it)%Z.
Proof.
  intros W Hne. pose proof (index_ok_valid _ (wf_index _ W)) as Hv.
  destruct (lookup_lt_is_Some_2 (elems (pq s)) 0) as [r Hr]; [unfold qlen in Hne; lia|].
  destruct (valid_lookup _ _ _ Hv Hr) as [it Hit].
  exists r, it. split; [|split; [done|by apply (root_is_max s r it)]].
  unfold peek. by rewrite (get_elem_nat 0), Hr.
Qed.

Lemma peek_max_witness :
  wf two_items ∧ qlen two_items ≠ 0 ∧
  ∃ r it, peek two_items = Ok r two_items ∧ mem two_items !! r = Some it ∧
          ∀ q b, q ∈ elems (pq two_items) → mem two_items !! q = Some b →
                 (priority b ≤ priority it)%Z.
Proof.
  split; [apply two_items_wf|]. split; [unfold qlen; simpl; lia|].
  apply (peek_max two_items two_items_wf). unfold qlen. simpl. lia.
Defined.

Lemma heap_Remove_out i s :
  (i < 0 ∨ Z.of_nat (qlen s) ≤ i)%Z → heap_Remove i s = Panic IndexOutOfRange s.
Proof.
  intros Hi. unfold heap_Remove, bind at 1, Len. cbv zeta.
  destruct (Z.of_nat (qlen s) - 1 =? i)%Z eqn:En; cbn [negb].
  - unfold IntQueue_Pop, bind, ret, Len.
    by rewrite get_elem_out by lia.
  - unfold Swap, bind.
    destruct (decide (qlen s = 0)) as [Hq|Hq].
    { by rewrite get_elem_out by lia. }
    replace (Z.of_nat (qlen s) - 1)%Z with (Z.of_nat (qlen s - 1)) by lia.
    rewrite get_elem_nat.
    destruct (lookup_lt_is_Some_2 (elems (pq s)) (qlen s - 1)) as [pj ->];
      [unfold qlen in *; lia|].
    by rewrite get_elem_out by lia.
Qed.

(** C8, as the code has it.  Neither [heap.Remove] at the recorded index
    nor [changePriority] checks that the item is the occupant of the
    position it records.  When the recorded index is outside the queue, as
    the -1 of a popped item is, the call panics with an index error in the
    state it was called in.  When an item outside the queue records a
    position of the queue, the call returns: the occupant of that position
    is taken out and the item is pushed in its place. *)
Theorem changePriority_no_validation s x it p :
  mem s !! x = Some it →
  ((index it < 0 ∨ Z.of_nat (qlen s) ≤ index it)%Z →
   removeAt x s = Panic IndexOutOfRange s ∧
   changePriority x p s = Panic IndexOutOfRange s) ∧
  (∀ k r, wf s → x ∉ elems (pq s) →
          index it = Z.of_nat k → elems (pq s) !! k = Some r →
          ∃ s', changePriority x p s = Ok tt s' ∧
                x ∈ elems (pq s') ∧ (r ∉ elems (pq s')) ∧ qlen s' = qlen s).
Proof.
  intros Hx. split.
  - intros Hi. unfold removeAt, changePriority, bind at 1 2, load. rewrite Hx.
    unfold bind at 1. by rewrite heap_Remove_out.
  - intros k r W Hn Hix Hr.
    destruct (changePriority_spec k r x it p s W Hx Hix Hr) as (s' & l & E & P1 & P2 & _);
      [by right|].
    assert (r ∈ elems (pq s)) as Hrs by (by eapply list_elem_of_lookup_2).
    exists s'. split; [done|]. split; [rewrite P2; by left|]. split.
    + rewrite P2. intros [->|Hl]%elem_of_cons; [done|].
      eapply (perm_cons_not_in r); [|done..]. by apply index_ok_NoDup, wf_index.
    + unfold qlen. apply Permutation_length in P1, P2. simpl in *. lia.
Qed.

Lemma changePriority_no_validation_witness :
  mem with_stranger !! 2 = Some (mkItem 2 7 0) ∧
  ∃ s', changePriority 2 3 with_stranger = Ok tt s' ∧
        2 ∈ elems (pq s') ∧ (1 ∉ elems (pq s')) ∧ qlen s' = qlen with_stranger.
Proof.
  split; [reflexivity|].
  refine (proj2 (changePriority_no_validation with_stranger 2 (mkItem 2 7 0) 3 eq_refl)
            0 1 with_stranger_wf _ eq_refl eq_refl).
  simpl. intros [?|[?|?%elem_of_nil]%elem_of_cons]%elem_of_cons; lia.
Defined.

(** C8, as the spec has it, fails: an item that was never pushed records
    index 0, and [changePriority] on it returns without an error, having
    removed the root of the queue and pushed the item. *)
Lemma changePriority_stranger_mutates :
  (2 ∉ elems (pq with_stranger)) ∧
  ∃ s', changePriority 2 3 with_stranger = Ok tt s' ∧
        elems (pq with_stranger) = [1; 0] ∧ elems (pq s') = [0; 2].
Proof.
  split.
  - simpl. intros [?|[?|?%elem_of_nil]%elem_of_cons]%elem_of_cons; lia.
  - eexists. split; [vm_compute; reflexivity|]. by split.
Qed.

(** C9, as the code has it.  [changePriority(item, p)] is the spec's
    composite of removal, rewriting and push with the item's value left as
    it is, for any item; [update(v, p)] is that composite for the item at
    the root. *)
Theorem rewriting_ops_refine_updatePriority s x it p :
  mem s !! x = Some it →
  changePriority x p s = updatePriority_spec x (value it) p s ∧
  (valid s → elems (pq s) !! 0 = Some x → index it = 0%Z →
   ∀ v, update v p s = updatePriority_spec x v p s).
Proof.
  intros Hx. split.
  - unfold changePriority, updatePriority_spec, removeAt, bind at 1 2 4 5 6, load.
    rewrite Hx. destruct (heap_Remove (index it) s) as [r s1| |] eqn:E; [|done..].
    pose proof (sp_value _ _ (keeps_heap_Remove _ _ _ _ E) x) as Hv. rewrite Hx in Hv.
    unfold bind at 2. unfold modify at 2.
    destruct (mem s1 !! x) as [it1|] eqn:E1.
    + simpl in Hv. replace (set_value (value it) it1) with it1
        by (destruct it1; unfold set_value; simpl in *; congruence).
      rewrite list_insert_id by done. by destruct s1.
    + unfold bind, modify. by rewrite E1.
  - intros Hv Hr Hix v.
    destruct (heap_Remove_spec 0 x s Hv Hr) as (s1 & E & _).
    unfold update, updatePriority_spec, removeAt, bind at 1 4 5, load.
    rewrite heap_Pop_Remove, Hx, Hix. change (Z.of_nat 0) with 0%Z in E. by rewrite E.
Qed.

Lemma rewriting_ops_refine_updatePriority_witness :
  mem two_items !! 1 = Some (mkItem 1 9 0) ∧
  changePriority 1 8 two_items = updatePriority_spec 1 1 8 two_items ∧
  update 42 8 two_items = updatePriority_spec 1 42 8 two_items.
Proof.
  split; [reflexivity|].
  destruct (rewriting_ops_refine_updatePriority two_items 1 (mkItem 1 9 0) 8 eq_refl)
    as [H1 H2].
  split; [exact H1|].
  apply H2; [apply index_ok_valid, wf_index, two_items_wf|reflexivity..].
Defined.

(** C9, as the spec has it, fails on both operations of the source:
    [changePriority] does not take or write a value, so it differs from the
    composite whenever the new value is not the old one, and [update]
    rewrites the root, not the item named. *)
Lemma updatePriority_spec_differs :
  0 ∈ elems (pq two_items) ∧
  changePriority 0 8 two_items ≠ updatePriority_spec 0 42 8 two_items ∧
  update 42 8 two_items ≠ updatePriority_spec 0 42 8 two_items.
Proof.
  split; [simpl; by right; left|].
  split; intros H; vm_compute in H; discriminate H.
Qed.

(** C10.  [update(v, p)] takes no item: on a non-empty queue it rewrites the
    item at the root, which holds a maximal priority, with value [v] and
    priority [p]; every other item keeps its value and priority, the queue
    holds the same items and has the same length afterwards.  On an empty
    queue it panics. *)
Theorem update_rewrites_root s v p :
  wf s →
  (qlen s = 0 → update v p s = Panic IndexOutOfRange s) ∧
  (qlen s ≠ 0 →
   ∃ r it s',
     elems (pq s) !! 0 = Some r ∧ mem s !! r = Some it ∧
     (∀ q b, q ∈ elems (pq s) → mem s !! q = Some b →
             (priority b ≤ priority it)%Z) ∧
     update v p s = Ok tt s' ∧
     qlen s' = qlen s ∧ elems (pq s') ≡ₚ elems (pq s) ∧
     value <$> mem s' !! r = Some v ∧ priority <$> mem s' !! r = Some p ∧
     (∀ q, q ≠ r → value <$> mem s' !! q = value <$> mem s !! q ∧
                   priority <$> mem s' !! q = priority <$> mem s !! q)).
Proof.
  intros W. split.
  - intros Hq. unfold update, bind. by rewrite heap_Pop_empty.
  - intros Hne. pose proof (index_ok_valid _ (wf_index _ W)) as Hv.
    destruct (lookup_lt_is_Some_2 (elems (pq s)) 0) as [r Hr]; [unfold qlen in Hne; lia|].
    destruct (valid_lookup _ _ _ Hv Hr) as [it Hit].
    destruct (update_spec r v p s W Hr) as (s' & E & P & Hval & Hpri & Hov & Hop & _).
    exists r, it, s'. split; [done|]. split; [done|].
    split; [by apply (root_is_max s r it)|]. split; [done|].
    split; [unfold qlen; by rewrite P|]. split; [done|]. split; [done|]. split; [done|].
    intros q Hq. split; auto.
Qed.

Lemma update_rewrites_root_witness :
  wf two_items ∧
  ∃ r it s',
    elems (pq two_items) !! 0 = Some r ∧ mem two_items !! r = Some it ∧
    (∀ q b, q ∈ elems (pq two_items) → mem two_items !! q = Some b →
            (priority b ≤ priority it)%Z) ∧
    update 42 8 two_items = Ok tt s' ∧
    qlen s' = qlen two_items ∧ elems (pq s') ≡ₚ elems (pq two_items) ∧
    value <$> mem s' !! r = Some 42%Z ∧ priority <$> mem s' !! r = Some 8%Z ∧
    (∀ q, q ≠ r → value <$> mem s' !! q = value <$> mem two_items !! q ∧
                  priority <$> mem s' !! q = priority <$> mem two_items !! q).
Proof.
  split; [apply two_items_wf|].
  apply (update_rewrites_root two_items 42 8 two_items_wf). unfold qlen. simpl. lia.
Defined.

(** * Further properties of the code *)

(** ** Filling and draining the queue *)

Section Driver.
Implicit Types (s : state) (k : nat).

Lemma same_payload_pv s s' p : same_payload s s' → pv (mem s') p = pv (mem s) p.
Proof.
  intros [_ Hv Hp]. specialize (Hv p). specialize (Hp p). unfold pv.
  destruct (mem s' !! p), (mem s !! p); simplify_eq/=; congruence.
Qed.

Lemma items_of_perm s s' l :
  same_payload s s' → elems (pq s) ≡ₚ l → pv (mem s') <$> l ≡ₚ items_of s.
Proof.
  intros Y P. unfold items_of. rewrite P.
  erewrite list_fmap_ext; [done|]. intros ? p _. by apply same_payload_pv.
Qed.

Lemma pv_priority s p it : mem s !! p = Some it → (pv (mem s) p).1 = priority it.
Proof. intros H. unfold pv. by rewrite H. Qed.

(** Every pair of the queue is below the pair of the root. *)
Lemma root_bounds_items s r :
  wf s → elems (pq s) !! 0 = Some r →
  Forall (by_priority (pv (mem s) r)) (items_of s).
Proof.
  intros W Hr. pose proof (index_ok_valid _ (wf_index _ W)) as Hv.
  destruct (valid_lookup _ _ _ Hv Hr) as [it Hit].
  unfold items_of. rewrite Forall_fmap. apply Forall_forall. intros q Hq. simpl.
  destruct (lookup_lt_is_Some_2 (mem s) q (Hv q Hq)) as [b Hb].
  unfold by_priority. rewrite (pv_priority _ _ _ Hit), (pv_priority _ _ _ Hb).
  by apply (root_is_max s r it W Hr Hit q b).
Qed.

Lemma pop_all_spec k : ∀ s,
  wf s → qlen s = k →
  ∃ out s', pop_all k s = Ok out s' ∧ qlen s' = 0 ∧ wf s' ∧
            capacity (pq s') = capacity (pq s) ∧
            out ≡ₚ items_of s ∧ StronglySorted by_priority out.
Proof.
  induction k as [|k IH]; intros s W Hk.
  { exists [], s. split; [done|]. split; [done|]. split; [done|]. split; [done|].
    unfold items_of, qlen in *. destruct (elems (pq s)); [|done].
    split; [done|constructor]. }
  pose proof (index_ok_valid _ (wf_index _ W)) as Hv.
  destruct (lookup_lt_is_Some_2 (elems (pq s)) 0) as [r Hr]; [unfold qlen in Hk; lia|].
  destruct (heap_Pop_spec r s Hv Hr) as (s1 & E1 & P1 & I1 & _ & Y1 & W1).
  specialize (W1 W).
  apply lookup_fmap_Some in I1 as (it1 & Hit1 & _).
  destruct (IH s1 W1) as (rest & s' & E2 & Hq & W' & Hc & P2 & S2).
  { apply Permutation_length in P1. unfold qlen in *. simpl in P1. lia. }
  exists ((priority it1, value it1) :: rest), s'.
  split.
  { simpl. unfold bind at 1. rewrite E1. unfold bind at 1, load. rewrite Hit1.
    unfold bind. by rewrite E2. }
  split; [done|]. split; [done|]. split; [by rewrite Hc, (sp_cap _ _ Y1)|].
  assert ((priority it1, value it1) = pv (mem s1) r) as ->
    by (unfold pv; by rewrite Hit1).
  assert (pv (mem s1) r :: rest ≡ₚ items_of s) as Hperm.
  { rewrite P2. change (pv (mem s1) <$> (r :: elems (pq s1)) ≡ₚ items_of s).
    by apply items_of_perm. }
  split; [done|]. constructor; [done|].
  pose proof (root_bounds_items s r W Hr) as Hb.
  rewrite <- Hperm in Hb. apply Forall_cons in Hb as [_ Hb].
  by rewrite (same_payload_pv _ _ _ Y1).
Qed.

Lemma pop_all_underflow k : ∀ s,
  wf s → qlen s < k →
  ∃ s', pop_all k s = Panic IndexOutOfRange s' ∧ qlen s' = 0.
Proof.
  induction k as [|k IH]; intros s W Hk; [lia|].
  destruct (decide (qlen s = 0)) as [Hq|Hq].
  { exists s. split; [|done]. simpl. unfold bind. by rewrite heap_Pop_empty. }
  pose proof (index_ok_valid _ (wf_index _ W)) as Hv.
  destruct (lookup_lt_is_Some_2 (elems (pq s)) 0) as [r Hr]; [unfold qlen in Hq; lia|].
  destruct (heap_Pop_spec r s Hv Hr) as (s1 & E1 & P1 & I1 & _ & Y1 & W1).
  apply lookup_fmap_Some in I1 as (it1 & Hit1 & _).
  destruct (IH s1 (W1 W)) as (s' & E2 & Hq').
  { apply Permutation_length in P1. unfold qlen in *. simpl in P1. lia. }
  exists s'. split; [|done].
  simpl. unfold bind at 1. rewrite E1. unfold bind at 1, load. rewrite Hit1.
  unfold bind. by rewrite E2.
Qed.



End Driver.

(** X1.  The second loop of [main] on any well-formed queue: popping as many
    times as the queue is long returns, and prints the pair of every item of
    the queue once, in an order in which priorities never increase; the
    queue is empty afterwards. *)
Theorem pop_all_drains_in_order s :
  wf s →
  ∃ out s', pop_all (qlen s) s = Ok out s' ∧ qlen s' = 0 ∧
            out ≡ₚ items_of s ∧ StronglySorted by_priority out.
Proof.
  intros W. destruct (pop_all_spec (qlen s) s W eq_refl)
    as (out & s' & E & Hq & _ & _ & P & S).
  by exists out, s'.
Qed.

Lemma pop_all_drains_in_order_witness :
  wf two_items ∧
  ∃ out s', pop_all (qlen two_items) two_items = Ok out s' ∧ qlen s' = 0 ∧
            out ≡ₚ items_of two_items ∧ StronglySorted by_priority out.
Proof.
  split; [apply two_items_wf|].
  apply (pop_all_drains_in_order two_items two_items_wf).
Defined.





(** X4.  Popping more often than the queue is long: the loop pops every
    item and then panics with an index error on the empty queue. *)
Theorem pop_all_beyond_length_panics s k :
  wf s → qlen s < k →
  ∃ s', pop_all k s = Panic IndexOutOfRange s' ∧ qlen s' = 0.
Proof. intros W Hk. by apply pop_all_underflow. Qed.

Lemma pop_all_beyond_length_panics_witness :
  wf two_items ∧ qlen two_items < 3 ∧
  ∃ s', pop_all 3 two_items = Panic IndexOutOfRange s' ∧ qlen s' = 0.
Proof.
  split; [apply two_items_wf|]. split; [unfold qlen; simpl; lia|].
  apply (pop_all_beyond_length_panics two_items 3 two_items_wf). unfold qlen. simpl. lia.
Defined.

(** ** What a returning call tells about its state *)

Section Inversion.
Implicit Types (s : state).

Lemma modify_inv x f s s' :
  modify x f s = Ok tt s' →
  ∃ it, mem s !! x = Some it ∧ s' = mkState (<[x := f it]> (mem s)) (pq s).
Proof.
  unfold modify. destruct (mem s !! x) as [it|]; [|done]. intros [= <-]. eauto.
Qed.

Lemma modify_lookup x f s s' q :
  modify x f s = Ok tt s' →
  mem s' !! q = if decide (q = x) then f <$> mem s !! x else mem s !! q.
Proof.
  intros (it & Hit & ->)%modify_inv. simpl.
  pose proof (lookup_lt_Some _ _ _ Hit).
  destruct (decide (q = x)) as [->|].
  - by rewrite list_lookup_insert_eq, Hit.
  - by rewrite list_lookup_insert_ne.
Qed.

Lemma IntQueue_Pop_inv s r s' :
  IntQueue_Pop s = Ok r s' → index <$> mem s' !! r = Some (-1)%Z.
Proof.
  unfold IntQueue_Pop, bind, Len.
  destruct (get_elem _ s) as [p s1| |] eqn:E1; [|done..].
  apply get_elem_inv in E1 as [-> _].
  destruct (modify p _ s) as [[] s2| |] eqn:E2; [|done..].
  intros [= <- <-]. simpl. rewrite (modify_lookup _ _ _ _ p E2), decide_True by done.
  apply modify_inv in E2 as (it & -> & _). done.
Qed.

Lemma heap_Pop_inv s r s' :
  heap_Pop s = Ok r s' → index <$> mem s' !! r = Some (-1)%Z.
Proof.
  unfold heap_Pop, bind, Len.
  destruct (Swap _ _ s) as [[] s1| |]; [|done..].
  destruct (down _ _ s1) as [b s2| |]; [|done..].
  apply IntQueue_Pop_inv.
Qed.

Lemma heap_Push_inv x s s' :
  heap_Push x s = Ok tt s' → x < length (mem s) ∧ qlen s < capacity (pq s).
Proof.
  unfold heap_Push, bind at 1, IntQueue_Push.
  destruct (capacity (pq s) <? qlen s + 1) eqn:Hc; [done|].
  unfold bind at 1, modify. destruct (mem s !! x) as [it|] eqn:Hx; [|done].
  intros _. split; [by eapply lookup_lt_Some|lia].
Qed.

(** [changePriority], on any state: what a returning call has changed. *)
Lemma changePriority_payload x p s s' :
  changePriority x p s = Ok tt s' →
  capacity (pq s') = capacity (pq s) ∧
  (∀ q, value <$> mem s' !! q = value <$> mem s !! q) ∧
  (∀ q, q ≠ x → priority <$> mem s' !! q = priority <$> mem s !! q) ∧
  priority <$> mem s' !! x = Some p.
Proof.
  unfold changePriority, bind at 1, load.
  destruct (mem s !! x) as [it|]; [|done].
  unfold bind at 1. destruct (heap_Remove _ s) as [r s1| |] eqn:E1; [|done..].
  unfold bind at 1. destruct (modify x _ s1) as [[] s2| |] eqn:E2; [|done..].
  intros E3.
  pose proof (keeps_heap_Remove _ _ _ _ E1) as Y1.
  pose proof (keeps_heap_Push _ _ _ _ E3) as Y3.
  pose proof (modify_lookup _ _ _ _ x E2) as Hx. rewrite decide_True in Hx by done.
  assert (pq s2 = pq s1) as Hq by (apply modify_inv in E2 as (? & _ & ->); done).
  split; [by rewrite (sp_cap _ _ Y3), Hq, (sp_cap _ _ Y1)|].
  split; [|split].
  - intros q. rewrite (sp_value _ _ Y3), (modify_lookup _ _ _ _ q E2).
    case_decide as Hqx; [subst q|by rewrite (sp_value _ _ Y1)].
    rewrite <- (sp_value _ _ Y1). by destruct (mem s1 !! x).
  - intros q Hqx. rewrite (sp_priority _ _ Y3), (modify_lookup _ _ _ _ q E2).
    by rewrite decide_False, (sp_priority _ _ Y1).
  - rewrite (sp_priority _ _ Y3), Hx.
    apply modify_inv in E2 as (it1 & -> & _). done.
Qed.

(** [update], on any state: what a returning call has changed. *)
Lemma update_payload v p s s' :
  update v p s = Ok tt s' →
  ∃ r, capacity (pq s') = capacity (pq s) ∧
       value <$> mem s' !! r = Some v ∧ priority <$> mem s' !! r = Some p ∧
       (∀ q, q ≠ r → value <$> mem s' !! q = value <$> mem s !! q) ∧
       (∀ q, q ≠ r → priority <$> mem s' !! q = priority <$> mem s !! q).
Proof.
  unfold update, bind at 1.
  destruct (heap_Pop s) as [r s1| |] eqn:E1; [|done..].
  unfold bind at 1. destruct (modify r _ s1) as [[] s2| |] eqn:E2; [|done..].
  unfold bind at 1. destruct (modify r _ s2) as [[] s3| |] eqn:E3; [|done..].
  intros E4. exists r.
  pose proof (keeps_heap_Pop _ _ _ E1) as Y1.
  pose proof (keeps_heap_Push _ _ _ _ E4) as Y4.
  assert (pq s2 = pq s1) as Hq2 by (apply modify_inv in E2 as (? & _ & ->); done).
  assert (pq s3 = pq s2) as Hq3 by (apply modify_inv in E3 as (? & _ & ->); done).
  split; [by rewrite (sp_cap _ _ Y4), Hq3, Hq2, (sp_cap _ _ Y1)|].
  pose proof (modify_lookup _ _ _ _ r E2) as H2. rewrite decide_True in H2 by done.
  pose proof (modify_lookup _ _ _ _ r E3) as H3. rewrite decide_True in H3 by done.
  apply modify_inv in E2 as Hi2. destruct Hi2 as (it1 & Hit1 & _).
  rewrite Hit1 in H2. rewrite H2 in H3. simpl in H3.
  split; [by rewrite (sp_value _ _ Y4), H3|].
  split; [by rewrite (sp_priority _ _ Y4), H3|].
  split; intros q Hq.
  - rewrite (sp_value _ _ Y4), (modify_lookup _ _ _ _ q E3), decide_False by done.
    by rewrite (modify_lookup _ _ _ _ q E2), decide_False, (sp_value _ _ Y1).
  - rewrite (sp_priority _ _ Y4), (modify_lookup _ _ _ _ q E3), decide_False by done.
    by rewrite (modify_lookup _ _ _ _ q E2), decide_False, (sp_priority _ _ Y1).
Qed.
End Inversion.

(** X5.  [changePriority] on an item of a well-formed queue returns; the
    queue holds the same items and is well formed again, the item has the
    new priority and its old value, and every other item keeps both. *)
Theorem changePriority_attached s x it p :
  wf s → x ∈ elems (pq s) → mem s !! x = Some it →
  ∃ s', changePriority x p s = Ok tt s' ∧ wf s' ∧
        elems (pq s') ≡ₚ elems (pq s) ∧
        value <$> mem s' !! x = Some (value it) ∧
        priority <$> mem s' !! x = Some p ∧
        (∀ q, q ≠ x → value <$> mem s' !! q = value <$> mem s !! q ∧
                      priority <$> mem s' !! q = priority <$> mem s !! q).
Proof.
  intros W [k Hk]%list_elem_of_lookup_1 Hx.
  pose proof (wf_index _ W k x Hk) as Hi. rewrite Hx in Hi. injection Hi as Hi.
  destruct (changePriority_spec k x x it p s W Hx Hi Hk)
    as (s' & l & E & P1 & P2 & Hv & Hp & Hov & Hop & W'); [by left|].
  exists s'. split; [done|]. split; [done|]. split; [by rewrite P1, P2|].
  split; [done|]. split; [done|]. intros q Hq. split; auto.
Qed.

Lemma changePriority_attached_witness :
  wf two_items ∧ 0 ∈ elems (pq two_items) ∧
  ∃ s', changePriority 0 12 two_items = Ok tt s' ∧ wf s' ∧
        elems (pq s') ≡ₚ elems (pq two_items) ∧
        value <$> mem s' !! 0 = Some (value (mkItem 0 5 1)) ∧
        priority <$> mem s' !! 0 = Some 12%Z ∧
        (∀ q, q ≠ 0 → value <$> mem s' !! q = value <$> mem two_items !! q ∧
                      priority <$> mem s' !! q = priority <$> mem two_items !! q).
Proof.
  assert (0 ∈ elems (pq two_items)) as Hin by (simpl; by right; left).
  split; [apply two_items_wf|]. split; [done|].
  apply (changePriority_attached two_items 0 (mkItem 0 5 1) 12 two_items_wf Hin).
  reflexivity.
Defined.

(** X6.  Raising an item above all others with [changePriority] brings it to
    the root: if the new priority is greater than the priority of every
    other item of the queue, the item is at position 0 afterwards. *)
Theorem changePriority_above_all_is_root s x p :
  wf s → x ∈ elems (pq s) →
  (∀ q b, q ∈ elems (pq s) → q ≠ x → mem s !! q = Some b → (priority b < p)%Z) →
  ∃ s', changePriority x p s = Ok tt s' ∧ elems (pq s') !! 0 = Some x.
Proof.
  intros W Hin Hlt. pose proof (index_ok_valid _ (wf_index _ W)) as Hv.
  destruct (lookup_lt_is_Some_2 (mem s) x (Hv x Hin)) as [it Hx].
  destruct (list_elem_of_lookup_1 _ _ Hin) as [k Hk].
  pose proof (wf_index _ W k x Hk) as Hi. rewrite Hx in Hi. injection Hi as Hi.
  destruct (changePriority_spec k x x it p s W Hx Hi Hk)
    as (s' & l & E & P1 & P2 & _ & Hp & _ & Hop & W'); [by left|].
  exists s'. split; [done|].
  assert (x ∈ elems (pq s')) as Hin' by (rewrite P2; by left).
  destruct (lookup_lt_is_Some_2 (elems (pq s')) 0) as [r Hr].
  { apply list_elem_of_lookup_1 in Hin' as [j Hj]. apply lookup_lt_Some in Hj. lia. }
  destruct (decide (r = x)) as [->|Hrx]; [done|exfalso].
  pose proof (index_ok_valid _ (wf_index _ W')) as Hv'.
  destruct (valid_lookup _ _ _ Hv' Hr) as [b' Hb'].
  apply lookup_fmap_Some in Hp as (a' & Ha' & Hpa).
  pose proof (root_is_max s' r b' W' Hr Hb' x a' Hin' Ha') as Hmax.
  assert (r ∈ elems (pq s)) as Hrs.
  { rewrite P1. right. apply list_elem_of_lookup_2 in Hr. rewrite P2 in Hr.
    by apply elem_of_cons in Hr as [?|?]. }
  pose proof (Hop r Hrx) as Hpr. rewrite Hb' in Hpr. symmetry in Hpr.
  apply lookup_fmap_Some in Hpr as (b & Hb & Hpb).
  specialize (Hlt r b Hrs Hrx Hb). lia.
Qed.

Lemma changePriority_above_all_is_root_witness :
  wf two_items ∧ 0 ∈ elems (pq two_items) ∧
  ∃ s', changePriority 0 12 two_items = Ok tt s' ∧ elems (pq s') !! 0 = Some 0.
Proof.
  assert (0 ∈ elems (pq two_items)) as Hin by (simpl; by right; left).
  split; [apply two_items_wf|]. split; [done|].
  apply (changePriority_above_all_is_root two_items 0 12 two_items_wf Hin).
  intros q b [->|[->|[]%elem_of_nil]%elem_of_cons]%elem_of_cons Hq [= <-]; [simpl; lia|done].
Defined.

(** X7.  [update] with a priority greater than that of every other item
    leaves the rewritten item at the root: position 0 holds the same item as
    before, now with the given value and priority. *)
Theorem update_above_all_stays_root s r v p :
  wf s → elems (pq s) !! 0 = Some r →
  (∀ q b, q ∈ elems (pq s) → q ≠ r → mem s !! q = Some b → (priority b < p)%Z) →
  ∃ s' it', update v p s = Ok tt s' ∧ elems (pq s') !! 0 = Some r ∧
            mem s' !! r = Some it' ∧ value it' = v ∧ priority it' = p.
Proof.
  intros W Hr Hlt.
  destruct (update_spec r v p s W Hr) as (s' & E & P & Hv & Hp & _ & Hop & W').
  apply lookup_fmap_Some in Hv as (a' & Ha' & Hva).
  apply lookup_fmap_Some in Hp as (a'' & Ha'' & Hpa). simplify_eq.
  exists s', a'. split; [done|]. split; [|done].
  assert (r ∈ elems (pq s')) as Hin'.
  { rewrite P. by eapply list_elem_of_lookup_2. }
  destruct (lookup_lt_is_Some_2 (elems (pq s')) 0) as [r' Hr'].
  { apply list_elem_of_lookup_1 in Hin' as [j Hj]. apply lookup_lt_Some in Hj. lia. }
  destruct (decide (r' = r)) as [->|Hrx]; [done|exfalso].
  pose proof (index_ok_valid _ (wf_index _ W')) as Hv'.
  destruct (valid_lookup _ _ _ Hv' Hr') as [b' Hb'].
  pose proof (root_is_max s' r' b' W' Hr' Hb' r a' Hin' Ha') as Hmax.
  assert (r' ∈ elems (pq s)) as Hrs.
  { rewrite <- P. by eapply list_elem_of_lookup_2. }
  pose proof (Hop r' Hrx) as Hpr. rewrite Hb' in Hpr. symmetry in Hpr.
  apply lookup_fmap_Some in Hpr as (b & Hb & Hpb).
  specialize (Hlt r' b Hrs Hrx Hb). lia.
Qed.

Lemma update_above_all_stays_root_witness :
  wf two_items ∧ elems (pq two_items) !! 0 = Some 1 ∧
  ∃ s' it', update 42 7 two_items = Ok tt s' ∧ elems (pq s') !! 0 = Some 1 ∧
            mem s' !! 1 = Some it' ∧ value it' = 42%Z ∧ priority it' = 7%Z.
Proof.
  split; [apply two_items_wf|]. split; [reflexivity|].
  apply (update_above_all_stays_root two_items 1 42 7 two_items_wf eq_refl).
  intros q b [->|[->|[]%elem_of_nil]%elem_of_cons]%elem_of_cons Hq [= <-]; [done|simpl; lia].
Defined.

(** X8.  The index -1 that [Pop] leaves in an item makes a stale handle
    fail: on any state, after [heap.Pop] has returned an item,
    [changePriority] on that item panics with an index error and changes
    nothing. *)
Theorem changePriority_after_Pop_panics s r s' p :
  heap_Pop s = Ok r s' →
  changePriority r p s' = Panic IndexOutOfRange s'.
Proof.
  intros (it & Hit & Hi)%heap_Pop_inv%lookup_fmap_Some.
  unfold changePriority, bind at 1, load. rewrite Hit.
  unfold bind. rewrite heap_Remove_out; [done|]. lia.
Qed.

Lemma changePriority_after_Pop_panics_witness :
  heap_Pop two_items = Ok 1 (mkState [mkItem 0 5 0; mkItem 1 9 (-1)] (mkQueue [0] 2)) ∧
  changePriority 1 3 (mkState [mkItem 0 5 0; mkItem 1 9 (-1)] (mkQueue [0] 2)) =
    Panic IndexOutOfRange (mkState [mkItem 0 5 0; mkItem 1 9 (-1)] (mkQueue [0] 2)).
Proof.
  split; [reflexivity|].
  apply (changePriority_after_Pop_panics two_items 1 _ 3). reflexivity.
Defined.

(** X9.  The methods [Push] and [Pop] of [IntQueue] undo each other on the
    slice: when there is room, pushing an allocated item and popping at once
    returns that item and leaves the queue as it was; the item is left with
    index -1 and no other item is written. *)
Theorem IntQueue_Push_Pop_round_trip s x :
  x < length (mem s) → qlen s < capacity (pq s) →
  ∃ s', (IntQueue_Push x ;;; IntQueue_Pop) s = Ok x s' ∧
        pq s' = pq s ∧
        index <$> mem s' !! x = Some (-1)%Z ∧
        (∀ q, q ≠ x → mem s' !! q = mem s !! q).
Proof.
  intros Hx Hc.
  destruct (IntQueue_Push_spec x s Hx Hc) as (s1 & E1 & He1 & _ & Ho1 & Y1).
  assert (pq s1 = mkQueue (elems (pq s) ++ [x]) (capacity (pq s))) as Hq1.
  { destruct (pq s1) as [l c] eqn:Eq. simpl in He1. subst l.
    f_equal. pose proof (sp_cap _ _ Y1) as Hcap. by rewrite Eq in Hcap. }
  destruct (lookup_lt_is_Some_2 (mem s1) x) as [it1 Hit1].
  { by rewrite (same_payload_length _ _ Y1). }
  exists (mkState (<[x := set_index (-1) it1]> (mem s1)) (pq s)).
  split.
  { unfold bind at 1. rewrite E1. unfold IntQueue_Pop, bind, Len, qlen. rewrite Hq1.
    simpl. rewrite length_app. simpl.
    replace (Z.of_nat (length (elems (pq s)) + 1) - 1)%Z
      with (Z.of_nat (length (elems (pq s)))) by lia.
    unfold get_elem, qlen. rewrite Hq1. simpl. rewrite length_app. simpl.
    destruct (_ || _) eqn:Eb; [lia|]. rewrite Nat2Z.id.
    rewrite lookup_app_r, Nat.sub_diag by lia. simpl.
    unfold modify. rewrite Hit1. simpl. rewrite Hq1. simpl.
    rewrite take_app_length. by destruct (pq s). }
  simpl. split; [done|]. split.
  - rewrite list_lookup_insert_eq; [done|by eapply lookup_lt_Some].
  - intros q Hq. by rewrite list_lookup_insert_ne, Ho1.
Qed.

Lemma IntQueue_Push_Pop_round_trip_witness :
  0 < length (mem one_spare) ∧ qlen one_spare < capacity (pq one_spare) ∧
  ∃ s', (IntQueue_Push 0 ;;; IntQueue_Pop) one_spare = Ok 0 s' ∧
        pq s' = pq one_spare ∧
        index <$> mem s' !! 0 = Some (-1)%Z ∧
        (∀ q, q ≠ 0 → mem s' !! q = mem one_spare !! q).
Proof.
  split; [simpl; lia|]. split; [unfold qlen; simpl; lia|].
  apply (IntQueue_Push_Pop_round_trip one_spare 0); unfold qlen; simpl; lia.
Defined.

(** X10.  [changePriority] never writes a value: on any state, well formed
    or not, a call that returns has kept the capacity of the queue, the
    value of every item and the priority of every item but the one given,
    whose priority is the new one. *)
Theorem changePriority_only_rewrites_priority s x p s' :
  changePriority x p s = Ok tt s' →
  capacity (pq s') = capacity (pq s) ∧
  (∀ q, value <$> mem s' !! q = value <$> mem s !! q) ∧
  (∀ q, q ≠ x → priority <$> mem s' !! q = priority <$> mem s !! q) ∧
  priority <$> mem s' !! x = Some p.
Proof. apply changePriority_payload. Qed.

Lemma changePriority_only_rewrites_priority_witness :
  changePriority 0 8 two_items =
    Ok tt (mkState [mkItem 0 8 1; mkItem 1 9 0] (mkQueue [1; 0] 2)) ∧
  priority <$> [mkItem 0 8 1; mkItem 1 9 0] !! 0 = Some 8%Z.
Proof.
  split; [reflexivity|].
  apply (changePriority_only_rewrites_priority two_items 0 8
           (mkState [mkItem 0 8 1; mkItem 1 9 0] (mkQueue [1; 0] 2)) eq_refl).
Defined.

(** X11.  [update] rewrites one item only: on any state, a call that returns
    has kept the capacity of the queue and the value and priority of every
    item but one, which has the given value and priority. *)
Theorem update_only_rewrites_one_item s v p s' :
  update v p s = Ok tt s' →
  ∃ r, capacity (pq s') = capacity (pq s) ∧
       value <$> mem s' !! r = Some v ∧ priority <$> mem s' !! r = Some p ∧
       (∀ q, q ≠ r → value <$> mem s' !! q = value <$> mem s !! q) ∧
       (∀ q, q ≠ r → priority <$> mem s' !! q = priority <$> mem s !! q).
Proof. apply update_payload. Qed.

Lemma update_only_rewrites_one_item_witness :
  update 42 8 two_items =
    Ok tt (mkState [mkItem 0 5 1; mkItem 42 8 0] (mkQueue [1; 0] 2)) ∧
  ∃ r, capacity (mkQueue [1; 0] 2) = capacity (pq two_items) ∧
       value <$> [mkItem 0 5 1; mkItem 42 8 0] !! r = Some 42%Z ∧
       priority <$> [mkItem 0 5 1; mkItem 42 8 0] !! r = Some 8%Z ∧
       (∀ q, q ≠ r → value <$> [mkItem 0 5 1; mkItem 42 8 0] !! q =
                     value <$> mem two_items !! q) ∧
       (∀ q, q ≠ r → priority <$> [mkItem 0 5 1; mkItem 42 8 0] !! q =
                     priority <$> mem two_items !! q).
Proof.
  split; [reflexivity|].
  apply (update_only_rewrites_one_item two_items 42 8
           (mkState [mkItem 0 5 1; mkItem 42 8 0] (mkQueue [1; 0] 2)) eq_refl).
Defined.

(** X12.  Bounds of [Swap] and [Less]: when one of the two positions is
    outside the queue, [Swap] panics with an index error before it writes
    anything, on any state; so does [Less] when the pointers of the queue
    can be dereferenced. *)
Theorem Swap_Less_out_of_range s i j :
  (i < 0 ∨ Z.of_nat (qlen s) ≤ i ∨ j < 0 ∨ Z.of_nat (qlen s) ≤ j)%Z →
  Swap i j s = Panic IndexOutOfRange s ∧
  (valid s → Less i j s = Panic IndexOutOfRange s).
Proof.
  intros Hout. split.
  - unfold Swap, bind.
    destruct (get_elem j s) as [pj s1| |] eqn:Ej.
    + apply get_elem_inv in Ej as [-> Hj]. by rewrite get_elem_out by lia.
    + unfold get_elem in Ej. repeat case_match; by simplify_eq.
    + by apply total_get_elem in Ej.
  - intros Hv. unfold Less, bind.
    destruct (get_elem i s) as [pi s1| |] eqn:Ei.
    + apply get_elem_inv in Ei as Hi. destruct Hi as [-> Hi].
      assert (pi ∈ elems (pq s)) as Hin.
      { unfold get_elem in Ei. repeat case_match; simplify_eq.
        by eapply list_elem_of_lookup_2. }
      destruct (lookup_lt_is_Some_2 (mem s) pi (Hv pi Hin)) as [a Ha].
      unfold load. rewrite Ha. by rewrite get_elem_out by lia.
    + unfold get_elem in Ei. repeat case_match; by simplify_eq.
    + by apply total_get_elem in Ei.
Qed.

Lemma Swap_Less_out_of_range_witness :
  Swap 0 2 two_items = Panic IndexOutOfRange two_items ∧
  Less 0 2 two_items = Panic IndexOutOfRange two_items.
Proof.
  destruct (Swap_Less_out_of_range two_items 0 2) as [H1 H2].
  - unfold qlen. simpl. lia.
  - split; [exact H1|]. apply H2, index_ok_valid, wf_index, two_items_wf.
Defined.



(** X14.  Ties and smaller priorities are not moved up: when the queue is
    empty, or the pushed item's priority does not exceed that of the item
    that becomes its parent, [heap.Push] puts the item in the last cell and
    leaves every cell and every other item as it was. *)
Theorem heap_Push_below_parent_appends s x it :
  valid s → mem s !! x = Some it → qlen s < capacity (pq s) →
  (qlen s ≠ 0 → (priority it ≤ prio s (parent (qlen s)))%Z) →
  ∃ s', heap_Push x s = Ok tt s' ∧
        elems (pq s') = elems (pq s) ++ [x] ∧
        (∀ q, q ≠ x → mem s' !! q = mem s !! q).
Proof.
  intros Hv Hx Hc Hle. pose proof (lookup_lt_Some _ _ _ Hx) as Hlt.
  destruct (IntQueue_Push_spec x s Hlt Hc) as (s1 & E1 & He1 & _ & Ho1 & Y1).
  assert (qlen s1 = S (qlen s)) as Hq1.
  { unfold qlen. rewrite He1, length_app. simpl. lia. }
  assert (valid s1) as Hv1.
  { intros q. rewrite He1, (same_payload_length _ _ Y1).
    intros [?| ->%list_elem_of_singleton]%elem_of_app; auto. }
  exists s1. split; [|done].
  unfold heap_Push, bind. rewrite E1. unfold Len, up. rewrite Hq1.
  replace (Z.of_nat (S (qlen s)) - 1)%Z with (Z.of_nat (qlen s)) by lia.
  simpl up_loop.
  replace (Z.quot (Z.of_nat (qlen s) - 1) 2) with (Z.of_nat (parent (qlen s)))
    by (unfold parent; lia).
  destruct (decide (qlen s = 0)) as [Hz|Hnz].
  { rewrite Hz. change (parent 0) with 0. by rewrite Z.eqb_refl. }
  pose proof (parent_lt (qlen s) ltac:(lia)) as Hp.
  rewrite (proj2 (Z.eqb_neq _ _)) by lia.
  unfold bind. rewrite Less_ok by (done || lia).
  assert (prio s1 (qlen s) = priority it) as ->.
  { unfold prio. rewrite He1, lookup_app_r by (unfold qlen; lia).
    unfold qlen. rewrite Nat.sub_diag. simpl.
    rewrite (same_payload_pri _ _ _ Y1). unfold pri. by rewrite Hx. }
  assert (prio s1 (parent (qlen s)) = prio s (parent (qlen s))) as ->.
  { unfold prio. rewrite He1, lookup_app_l by (unfold qlen in *; lia).
    destruct (elems (pq s) !! _); [simpl|done]. by apply same_payload_pri. }
  specialize (Hle Hnz).
  destruct (priority it >? prio s (parent (qlen s)))%Z eqn:Hgt; [lia|done].
Qed.

Lemma heap_Push_below_parent_appends_witness :
  ∃ s', heap_Push 2 with_tie = Ok tt s' ∧
        elems (pq s') = elems (pq with_tie) ++ [2] ∧
        (∀ q, q ≠ 2 → mem s' !! q = mem with_tie !! q).
Proof.
  apply (heap_Push_below_parent_appends with_tie 2 (mkItem 2 9 0)).
  - intros q [->|[->|[]%elem_of_nil]%elem_of_cons]%elem_of_cons; simpl; lia.
  - reflexivity.
  - unfold qlen. simpl. lia.
  - intros _. vm_compute. discriminate.
Defined.

(** ** Steps and swaps *)

Section Steps.
Implicit Types (s : state).

Lemma step_capacity s s' : step s s' → capacity (pq s') = capacity (pq s).
Proof.
  intros [s0 it|s0 x it Hx Hn|s0 x s1 Hx Hn E|s0 r s1 E|s0 x p s1 Hx E|s0 v p s1 E];
    [done|done| | | |].
  - apply (keeps_heap_Push _ _ _ _ E).
  - apply (keeps_heap_Pop _ _ _ E).
  - apply (changePriority_payload _ _ _ _ E).
  - by destruct (update_payload _ _ _ _ E) as (r & Hc & _).
Qed.

Lemma Item_eq (a b : Item) :
  value a = value b → priority a = priority b → index a = index b → a = b.
Proof. destruct a, b. simpl. congruence. Qed.

Lemma state_eq s s' : mem s = mem s' → pq s = pq s' → s = s'.
Proof. destruct s, s'. simpl. congruence. Qed.

Lemma two_items_steps : rtc step (initial 2) two_items.
Proof.
  eapply rtc_l; [apply (step_alloc (initial 2) (mkItem 0 5 0))|].
  eapply rtc_l; [apply (step_alloc _ (mkItem 1 9 0))|].
  eapply (rtc_l _ _ (mkState [mkItem 0 5 0; mkItem 1 9 0] (mkQueue [0] 2))).
  { apply (step_push _ 0); [simpl; lia|by apply not_elem_of_nil|done]. }
  apply rtc_once. apply (step_push _ 1); [simpl; lia| |done].
  simpl. by intros ?%list_elem_of_singleton.
Qed.
End Steps.

(** X15.  [Swap] undoes itself on a queue whose items record their
    positions: exchanging two positions of the queue twice gives back the
    state it started from, cells and index fields alike. *)
Theorem Swap_twice_restores s i j :
  index_ok s → i < qlen s → j < qlen s →
  (Swap (Z.of_nat i) (Z.of_nat j) ;;; Swap (Z.of_nat i) (Z.of_nat j)) s = Ok tt s.
Proof.
  intros Hix Hi Hj. pose proof (index_ok_valid _ Hix) as Hv.
  destruct (lookup_lt_is_Some_2 (elems (pq s)) i Hi) as [pi Ei].
  destruct (lookup_lt_is_Some_2 (elems (pq s)) j Hj) as [pj Ej].
  destruct (Swap_ok i j pi pj s Hv Ei Ej) as (s1 & E1 & He1 & Ho1 & _ & _).
  pose proof (keeps_Swap _ _ _ _ _ E1) as Y1.
  assert (valid s1) as Hv1.
  { intros p Hp. rewrite (same_payload_length _ _ Y1). apply Hv.
    rewrite He1 in Hp. revert Hp. by rewrite (Permutation_insert_swap _ _ _ _ _ Ei Ej). }
  assert (elems (pq s1) !! j = Some pi) as Ej1.
  { rewrite He1. apply list_lookup_insert_eq. by rewrite length_insert. }
  assert (elems (pq s1) !! i = Some pj) as Ei1.
  { rewrite He1. destruct (decide (i = j)) as [->|].
    - rewrite list_lookup_insert_eq by (by rewrite length_insert). congruence.
    - rewrite list_lookup_insert_ne by done. by apply list_lookup_insert_eq. }
  destruct (Swap_ok i j pj pi s1 Hv1 Ei1 Ej1) as (s2 & E2 & He2 & Ho2 & Hj2 & Hi2).
  pose proof (keeps_Swap _ _ _ _ _ E2) as Y2.
  pose proof (same_payload_trans _ _ _ Y1 Y2) as Y.
  unfold bind. rewrite E1, E2. f_equal. apply state_eq.
  - apply list_eq. intros p.
    assert (∀ k, elems (pq s) !! k = Some p →
                 index <$> mem s2 !! p = Some (Z.of_nat k) →
                 mem s2 !! p = mem s !! p) as Hsame.
    { intros k Hk Hidx. pose proof (Hix k p Hk) as Hidx0.
      pose proof (sp_value _ _ Y p) as Hval. pose proof (sp_priority _ _ Y p) as Hpri.
      destruct (mem s2 !! p) as [a|], (mem s !! p) as [b|]; simplify_eq/=.
      f_equal. apply Item_eq; congruence. }
    destruct (decide (p = pj)) as [->|Hpj]; [by apply (Hsame j)|].
    destruct (decide (p = pi)) as [->|Hpi]; [apply (Hsame i); [done|by apply Hi2]|].
    by rewrite Ho2, Ho1.
  - assert (elems (pq s2) = elems (pq s)) as He.
    { rewrite He2, He1. apply list_eq. intros k.
      destruct (decide (k = j)) as [->|Hkj].
      { rewrite list_lookup_insert_eq by (by rewrite !length_insert). done. }
      rewrite list_lookup_insert_ne by done.
      destruct (decide (k = i)) as [->|Hki].
      { rewrite list_lookup_insert_eq by (by rewrite !length_insert). done. }
      by rewrite !list_lookup_insert_ne. }
    pose proof (sp_cap _ _ Y) as Hc.
    destruct (pq s2), (pq s). simpl in *. congruence.
Qed.

Lemma Swap_twice_restores_witness :
  (Swap 0 1 ;;; Swap 0 1) two_items = Ok tt two_items.
Proof.
  apply (Swap_twice_restores two_items 0 1).
  - apply wf_index, two_items_wf.
  - unfold qlen. simpl. lia.
  - unfold qlen. simpl. lia.
Defined.

(** X16.  The queue never grows: whatever sequence of allocations, writes to
    detached items, pushes, pops, [changePriority] and [update] calls is run
    from the queue made by [NewIntQueue(n)], its capacity stays [n] and it
    never holds more than [n] items. *)
Theorem queue_stays_within_capacity n s :
  rtc step (initial n) s → capacity (pq s) = n ∧ qlen s ≤ n.
Proof.
  intros H.
  assert (wf s ∧ capacity (pq s) = n) as [W Hc].
  { revert s H. apply rtc_ind_r; [split; [apply wf_initial|done]|].
    intros s s' _ Hs [W Hc]. split; [by eapply wf_step|].
    by rewrite (step_capacity _ _ Hs). }
  split; [done|]. pose proof (wf_cap _ W) as Hcap. unfold cap_ok in Hcap. lia.
Qed.

Lemma queue_stays_within_capacity_witness :
  rtc step (initial 2) two_items ∧ capacity (pq two_items) = 2 ∧ qlen two_items ≤ 2.
Proof.
  split; [apply two_items_steps|].
  apply (queue_stays_within_capacity 2 two_items two_items_steps).
Defined.

(** X17.  The operations leave alone what is outside the queue: on a
    well-formed queue, an item that is not in the queue and is not the
    argument of the call is the same after [heap.Push], [heap.Pop],
    [changePriority] and [update] as before, index field included. *)
Theorem detached_items_untouched s q :
  wf s → q ∉ elems (pq s) →
  (∀ x s', x ≠ q → heap_Push x s = Ok tt s' → mem s' !! q = mem s !! q) ∧
  (∀ r s', heap_Pop s = Ok r s' → mem s' !! q = mem s !! q) ∧
  (∀ x p s', x ≠ q → changePriority x p s = Ok tt s' → mem s' !! q = mem s !! q) ∧
  (∀ v p s', update v p s = Ok tt s' → mem s' !! q = mem s !! q).
Proof.
  intros W Hq. pose proof (index_ok_valid _ (wf_index _ W)) as Hv.
  assert (∀ x s0 s', valid s0 → x ≠ q → q ∉ elems (pq s0) →
            heap_Push x s0 = Ok tt s' → mem s' !! q = mem s0 !! q) as HPush.
  { intros x s0 s' Hv0 Hxq Hq0 E. destruct (heap_Push_inv _ _ _ E) as [Hx Hc].
    destruct (heap_Push_spec x s0 Hv0 Hx Hc) as (s1 & E1 & _ & Ho & _).
    rewrite E1 in E. simplify_eq. by apply Ho. }
  assert (∀ r s', heap_Pop s = Ok r s' →
            mem s' !! q = mem s !! q ∧ wf s' ∧ elems (pq s) ≡ₚ r :: elems (pq s')) as HPop.
  { intros r s' E. destruct (elems (pq s) !! 0) as [r0|] eqn:Hr.
    - destruct (heap_Pop_spec r0 s Hv Hr) as (s1 & E1 & P1 & _ & Ho & _ & W1).
      rewrite E1 in E. simplify_eq. auto.
    - apply lookup_ge_None_1 in Hr. rewrite heap_Pop_empty in E; [done|].
      unfold qlen. lia. }
  split; [intros x s' Hxq E; by apply (HPush x s s')|].
  split; [intros r s' E; by destruct (HPop r s' E)|]. split.
  - intros x p s' Hxq. unfold changePriority, bind at 1, load.
    destruct (mem s !! x) as [it|] eqn:Hx; [|done].
    destruct (decide (0 ≤ index it < Z.of_nat (qlen s))%Z) as [Hin|Hout].
    2: { unfold bind. rewrite heap_Remove_out by lia. done. }
    destruct (lookup_lt_is_Some_2 (elems (pq s)) (Z.to_nat (index it))) as [r Hr];
      [unfold qlen in Hin; lia|].
    destruct (heap_Remove_spec _ r s Hv Hr) as (s1 & E1 & P1 & _ & Ho1 & _ & W1).
    rewrite Z2Nat.id in E1 by lia.
    unfold bind at 1. rewrite E1.
    unfold bind. destruct (modify x _ s1) as [[] s2| |] eqn:E2; [|done..].
    intros E3.
    pose proof (modify_lookup _ _ _ _ q E2) as Hq2. rewrite decide_False in Hq2 by done.
    apply modify_inv in E2 as (it1 & Hit1 & ->).
    assert (q ∉ elems (pq s1)) as Hq1.
    { intros Hin1. apply Hq. rewrite P1. by right. }
    assert (valid (mkState (<[x:=set_priority p it1]> (mem s1)) (pq s1))) as Hv2.
    { intros y Hy. simpl in *. rewrite length_insert.
      by apply (index_ok_valid _ (wf_index _ (W1 W))). }
    rewrite (HPush x _ s' Hv2 Hxq Hq1 E3). simpl in *. by rewrite Hq2, Ho1.
  - intros v p s'. unfold update, bind at 1.
    destruct (heap_Pop s) as [r s1| |] eqn:E1; [|done..].
    destruct (HPop r s1 eq_refl) as (Ho1 & W1 & P1).
    assert (r ≠ q) as Hrq.
    { intros ->. apply Hq. rewrite P1. by left. }
    assert (q ∉ elems (pq s1)) as Hq1.
    { intros Hin1. apply Hq. rewrite P1. by right. }
    unfold bind at 1. destruct (modify r _ s1) as [[] s2| |] eqn:E2; [|done..].
    unfold bind at 1. destruct (modify r _ s2) as [[] s3| |] eqn:E3; [|done..].
    intros E4.
    pose proof (modify_lookup _ _ _ _ q E2) as Hq2. rewrite decide_False in Hq2 by done.
    pose proof (modify_lookup _ _ _ _ q E3) as Hq3. rewrite decide_False in Hq3 by done.
    apply modify_inv in E2 as (it1 & Hit1 & ->).
    apply modify_inv in E3 as (it2 & Hit2 & ->).
    assert (valid (mkState (<[r:=set_priority p it2]> (<[r:=set_value v it1]> (mem s1)))
                     (pq s1))) as Hv3.
    { intros y Hy. simpl in *. rewrite !length_insert.
      by apply (index_ok_valid _ (wf_index _ W1)). }
    rewrite (HPush r _ s' Hv3 Hrq Hq1 E4). simpl in *. by rewrite Hq3, Hq2, Ho1.
Qed.

Lemma detached_items_untouched_witness :
  wf with_stranger ∧ (2 ∉ elems (pq with_stranger)) ∧
  (∀ r s', heap_Pop with_stranger = Ok r s' → mem s' !! 2 = mem with_stranger !! 2).
Proof.
  assert (2 ∉ elems (pq with_stranger)) as Hn.
  { simpl. intros [?|[?|?%elem_of_nil]%elem_of_cons]%elem_of_cons; lia. }
  split; [apply with_stranger_wf|]. split; [done|].
  apply (detached_items_untouched with_stranger 2 with_stranger_wf Hn).
Defined.

(** X18.  The loops of [up] and [down] end: on every state, well formed or
    not, each operation of the queue returns or panics; the number of
    iterations allowed to a loop, one more than the length of the queue, is
    never used up. *)
Theorem operations_terminate s x v p i :
  heap_Push x s ≠ OutOfFuel ∧ heap_Pop s ≠ OutOfFuel ∧
  heap_Remove i s ≠ OutOfFuel ∧
  update v p s ≠ OutOfFuel ∧ changePriority x p s ≠ OutOfFuel.
Proof.
  destruct operations_total as (H1 & H2 & H3 & H4 & H5).
  split; [apply H1|]. split; [apply H2|]. split; [apply H3|].
  split; [apply H4|apply H5].
Qed.
